(** * Outbound queue manager of the SMTP crate (crates/smtp/src/queue/manager.rs)

    Shallow embedding of [Queue::start] (one iteration of its loop at a
    time), of the per-item rescan, of the periodic hold cleanup and of the
    deadline queries of [Message].

    Clocks: epoch seconds ([store::write::now()], a u64) and monotonic
    [Instant]s (seconds) are both [Z].  Every reading of a clock the source
    makes is an explicit input of the iteration ([Env]). *)

From Stdlib Require Import ZArith Lia.
From stdpp Require Import base gmap list strings.

Local Open Scope Z_scope.

(** ** Machine arithmetic *)

Definition u64_modulus : Z := 2 ^ 64.

(** [a - b] on u64 in a release build (no overflow checks): wraps. *)
Definition wrapping_sub_u64 (a b : Z) : Z := (a - b) mod u64_modulus.

(** [Instant + Duration] on Linux: the seconds of the duration are converted
    to i64 and added to the i64 [tv_sec]; [Add] panics
    ("overflow when adding duration to instant") when either step fails. *)
Definition i64_max : Z := 2 ^ 63 - 1.

Definition instant_checked_add (i secs : Z) : option Z :=
  if (secs <=? i64_max) && (i + secs <=? i64_max) then Some (i + secs) else None.

(** [Instant::duration_since] saturates at zero. *)
Definition duration_since (later earlier : Z) : Z := Z.max 0 (later - earlier).

(** ** common::ipc *)

Definition QueueId := nat.

(** A concurrency limiter handle: its [concurrent] counter is an atomic
    shared with the delivery tasks, read through the admission state. *)
Record ConcurrencyLimiter := {
  limiter_id : nat;
  max_concurrent : Z;
}.

Inductive OnHold :=
| Locked (until : Z)
| ConcurrencyLimited (limiters : list ConcurrencyLimiter) (next_due : option Z)
| InFlight.

Module Ipc.
Inductive QueueEvent :=
| Refresh (queue_id : option QueueId)
| WorkerDone (queue_id : QueueId)
| OnHoldEvent (queue_id : QueueId) (status : OnHold)
| Paused (paused : bool)
| Stop.
End Ipc.

(** The store's due list (spool::QueueEvent). *)
Module Spool.
Record QueueEvent := {
  queue_id : QueueId;
  due : Z;
}.
End Spool.

(** Result of [tokio::time::timeout(.., rx.recv()).await]:
    [Elapsed] is [Err(_)], [Received None] a closed channel. *)
Inductive Wait :=
| Elapsed
| Received (msg : option Ipc.QueueEvent).

(** ** Manager state

    [on_hold] and [next_wake_up] are the fields of [Queue]; [is_paused] and
    [next_cleanup] are the locals of [start]; [queue_status] is
    [core.data.queue_status]. *)
Record Queue := {
  on_hold : gmap QueueId OnHold;
  next_wake_up : Z;
  is_paused : bool;
  next_cleanup : Z;
  queue_status : bool;
}.

Definition set_on_hold (m : gmap QueueId OnHold) (q : Queue) : Queue :=
  {| on_hold := m; next_wake_up := next_wake_up q; is_paused := is_paused q;
     next_cleanup := next_cleanup q; queue_status := queue_status q |}.

Definition set_next_wake_up (w : Z) (q : Queue) : Queue :=
  {| on_hold := on_hold q; next_wake_up := w; is_paused := is_paused q;
     next_cleanup := next_cleanup q; queue_status := queue_status q |}.

Definition set_paused (p : bool) (q : Queue) : Queue :=
  {| on_hold := on_hold q; next_wake_up := next_wake_up q; is_paused := p;
     next_cleanup := next_cleanup q; queue_status := negb p |}.

Definition set_next_cleanup (c : Z) (q : Queue) : Queue :=
  {| on_hold := on_hold q; next_wake_up := next_wake_up q; is_paused := is_paused q;
     next_cleanup := c; queue_status := queue_status q |}.

(** Duration of the timed wait at the top of the loop (line 61). *)
Definition wait_duration (q : Queue) (instant_now : Z) : Z :=
  duration_since (next_wake_up q) instant_now.

(** ** Control events (lines 60-99) *)

Inductive Handled :=
| HBreak
| HPanic
| HCont (q : Queue) (refresh_queue : bool).

(** [instant_now] and [epoch_now] are the [Instant::now()] and [now()] read
    by the [OnHold] arm (line 78). *)
Definition handle_event (q : Queue) (w : Wait) (instant_now epoch_now : Z) : Handled :=
  match w with
  | Elapsed => HCont q true
  | Received None | Received (Some Ipc.Stop) => HBreak
  | Received (Some (Ipc.Refresh queue_id)) =>
      match queue_id with
      | Some id => HCont (set_on_hold (delete id (on_hold q)) q) true
      | None => HCont q true
      end
  | Received (Some (Ipc.WorkerDone id)) =>
      let m := delete id (on_hold q) in
      HCont (set_on_hold m q) (negb (bool_decide (m = ∅)))
  | Received (Some (Ipc.OnHoldEvent id status)) =>
      let locked :=
        match status with
        | Locked until =>
            match instant_checked_add instant_now (wrapping_sub_u64 until epoch_now) with
            | None => None
            | Some due_in =>
                Some (if due_in <? next_wake_up q then set_next_wake_up due_in q else q)
            end
        | _ => Some q
        end in
      match locked with
      | None => HPanic
      | Some q1 =>
          let m := <[id := status]> (on_hold q1) in
          HCont (set_on_hold m q1) (1 <? size m)%nat
      end
  | Received (Some (Ipc.Paused paused)) => HCont (set_paused paused q) false
  end.

(** ** The shuffle of [rand::seq::SliceRandom] (Fisher-Yates)

    [for i in (1..len).rev() { let j = gen_index(rng, i + 1); swap(i, j) }];
    [rng i] is the raw draw taken at index [i]. *)
Definition swap {A} (i j : nat) (l : list A) : list A :=
  match l !! i, l !! j with
  | Some x, Some y => <[j := x]> (<[i := y]> l)
  | _, _ => l
  end.

Fixpoint shuffle_down {A} (rng : nat -> nat) (i : nat) (l : list A) : list A :=
  match i with
  | O => l
  | S k => shuffle_down rng k (swap i (rng i mod S i)%nat l)
  end.

Definition shuffle {A} (rng : nat -> nat) (l : list A) : list A :=
  shuffle_down rng (length l - 1)%nat l.

(** ** Rescan (lines 103-195) *)

(** Outcome of one due-list entry in a rescan. *)
Inductive Outcome :=
| Dispatched (e : Spool.QueueEvent)  (* InFlight inserted, DeliveryAttempt spawned *)
| Limited (e : Spool.QueueEvent)     (* ConcurrencyLimited inserted *)
| Held (e : Spool.QueueEvent)        (* skipped by its hold *)
| NotDue (e : Spool.QueueEvent).     (* due > now: deadline folded *)

Definition outcome_event (o : Outcome) : Spool.QueueEvent :=
  match o with
  | Dispatched e | Limited e | Held e | NotDue e => e
  end.

(** Result of [server.is_outbound_allowed(&mut in_flight)]. *)
Inductive Allowed :=
| AllowedOk
| Refused (limiter : ConcurrencyLimiter).

Definition CLEANUP_INTERVAL : Z := 10 * 60.

(** Retention predicate of the cleanup pass (lines 184-190). *)
Definition retain_hold (active_queue_ids : gset QueueId) (now : Z)
    (queue_id : QueueId) (status : OnHold) : bool :=
  match status with
  | InFlight => true
  | Locked until => now <? until
  | ConcurrencyLimited _ _ => bool_decide (queue_id ∈ active_queue_ids)
  end.

Definition cleanup (active_queue_ids : gset QueueId) (now : Z)
    (m : gmap QueueId OnHold) : gmap QueueId OnHold :=
  filter (fun kv => retain_hold active_queue_ids now kv.1 kv.2 = true) m.

(** The clock readings and external results one loop iteration sees. *)
Record Env := {
  env_wait : Wait;                      (* timeout(rx.recv()) *)
  env_instant_78 : Z;                   (* Instant::now(), OnHold arm *)
  env_epoch_78 : Z;                     (* now(), OnHold arm *)
  env_instant_103 : Z;                  (* Instant::now(), refresh test *)
  env_epoch_104 : Z;                    (* now(), start of rescan *)
  env_batch : list Spool.QueueEvent;    (* server.next_event().await *)
  env_rng : nat -> nat;                 (* rand::thread_rng() draws *)
  env_instant_174 : Z;                  (* Instant::now(), end of rescan *)
  env_epoch_183 : Z;                    (* store::write::now(), cleanup *)
  env_instant_198 : Z;                  (* Instant::now(), paused branch *)
}.

Record Scan {Adm : Type} := {
  scan_on_hold : gmap QueueId OnHold;
  scan_next_wake_up : Z;    (* the local next_wake_up, in seconds *)
  scan_adm : Adm;
}.
Arguments Scan : clear implicits.
Arguments Build_Scan {Adm}.

Inductive Step {Adm : Type} :=
| Break
| Panic
| Continue (q : Queue) (adm : Adm) (trace : list Outcome).
Arguments Step : clear implicits.

(** The hold an item may have when it reaches admission (lines 118-141):
    none, an expired [Locked], or a [ConcurrencyLimited] hold; never
    [InFlight]. *)
Definition admission_prior (now : Z) (h : option OnHold) : Prop :=
  match h with
  | Some InFlight => False
  | Some (Locked until) => until <= now
  | _ => True
  end.

(** The effect of one item of the pass on the scan state, by outcome. *)
Definition outcome_effect {Adm} (now : Z) (s s' : Scan Adm) (o : Outcome) : Prop :=
  match o with
  | Dispatched e =>
      Spool.due e <= now /\ admission_prior now (scan_on_hold s !! Spool.queue_id e) /\
      scan_on_hold s' = <[Spool.queue_id e := InFlight]> (scan_on_hold s) /\
      scan_next_wake_up s' = scan_next_wake_up s
  | Limited e =>
      Spool.due e <= now /\ admission_prior now (scan_on_hold s !! Spool.queue_id e) /\
      (exists l, scan_on_hold s' =
         <[Spool.queue_id e := ConcurrencyLimited [l] None]> (scan_on_hold s)) /\
      scan_next_wake_up s' = scan_next_wake_up s
  | Held e =>
      Spool.due e <= now /\ scan_on_hold s' = scan_on_hold s /\ scan_adm s' = scan_adm s /\
      exists h, scan_on_hold s !! Spool.queue_id e = Some h /\
        match h with
        | Locked until =>
            now < until /\ scan_next_wake_up s' = Z.min (scan_next_wake_up s) (until - now)
        | _ => scan_next_wake_up s' = scan_next_wake_up s
        end
  | NotDue e =>
      now < Spool.due e /\ scan_on_hold s' = scan_on_hold s /\ scan_adm s' = scan_adm s /\
      scan_next_wake_up s' = Z.min (scan_next_wake_up s) (Spool.due e - now)
  end.

Section Manager.
(** The admission state: the limiters' atomic counters and whatever
    [is_outbound_allowed] (throttle.rs) consults and updates. *)
Context {Adm : Type}.
Variable concurrent : Adm -> ConcurrencyLimiter -> Z.
Variable is_outbound_allowed : Adm -> Allowed * Adm.
(** [spool::QUEUE_REFRESH], the default refresh ceiling in seconds. *)
Variable QUEUE_REFRESH : Z.

Definition enforce_limits (now : Z) (s : Scan Adm) (e : Spool.QueueEvent) : Scan Adm * Outcome :=
  let id := Spool.queue_id e in
  match is_outbound_allowed (scan_adm s) with
  | (AllowedOk, adm') =>
      (Build_Scan (<[id := InFlight]> (scan_on_hold s)) (scan_next_wake_up s) adm',
       Dispatched e)
  | (Refused limiter, adm') =>
      (Build_Scan (<[id := ConcurrencyLimited [limiter] None]> (scan_on_hold s))
         (scan_next_wake_up s) adm',
       Limited e)
  end.

Definition drop_hold (id : QueueId) (s : Scan Adm) : Scan Adm :=
  Build_Scan (delete id (scan_on_hold s)) (scan_next_wake_up s) (scan_adm s).

Definition fold_wake_up (due_in : Z) (s : Scan Adm) : Scan Adm :=
  Build_Scan (scan_on_hold s)
    (if due_in <? scan_next_wake_up s then due_in else scan_next_wake_up s)
    (scan_adm s).

Definition limiter_has_room (adm : Adm) (l : ConcurrencyLimiter) : bool :=
  concurrent adm l <? max_concurrent l.

(** Body of [for queue_event in &queue_events] (lines 116-170). *)
Definition process_event (now : Z) (s : Scan Adm) (e : Spool.QueueEvent)
    : Scan Adm * Outcome :=
  let id := Spool.queue_id e in
  if Spool.due e <=? now then
    match scan_on_hold s !! id with
    | Some (Locked until) =>
        if now <? until then (fold_wake_up (until - now) s, Held e)
        else enforce_limits now (drop_hold id s) e
    | Some (ConcurrencyLimited limiters next_due) =>
        if negb (existsb (limiter_has_room (scan_adm s)) limiters
                 || match next_due with Some d => d <=? now | None => false end)
        then (s, Held e)
        else enforce_limits now (drop_hold id s) e
    | Some InFlight => (s, Held e)
    | None => enforce_limits now s e
    end
  else (fold_wake_up (Spool.due e - now) s, NotDue e).

Fixpoint process_events (now : Z) (s : Scan Adm) (es : list Spool.QueueEvent)
    : Scan Adm * list Outcome :=
  match es with
  | [] => (s, [])
  | e :: es' =>
      let '(s1, o) := process_event now s e in
      let '(s2, os) := process_events now s1 es' in
      (s2, o :: os)
  end.

Definition rescan_order (env : Env) : list Spool.QueueEvent :=
  let b := env_batch env in
  if (5 <? length b)%nat then shuffle (env_rng env) b else b.

(** Lines 104-194. *)
Definition rescan (q : Queue) (adm : Adm) (env : Env) : option (Queue * Adm * list Outcome) :=
  let now := env_epoch_104 env in
  let queue_events := rescan_order env in
  let '(s, trace) := process_events now (Build_Scan (on_hold q) QUEUE_REFRESH adm) queue_events in
  let inow := env_instant_174 env in
  let cleaned :=
    if next_cleanup q <=? inow then
      match instant_checked_add inow CLEANUP_INTERVAL with
      | None => None
      | Some nc =>
          let m := scan_on_hold s in
          let m' := if bool_decide (m = ∅) then m
                    else cleanup (list_to_set (Spool.queue_id <$> queue_events))
                           (env_epoch_183 env) m in
          Some (set_next_cleanup nc (set_on_hold m' q))
      end
    else Some (set_on_hold (scan_on_hold s) q) in
  match cleaned with
  | None => None
  | Some q1 =>
      match instant_checked_add inow (scan_next_wake_up s) with
      | None => None
      | Some w => Some (set_next_wake_up w q1, scan_adm s, trace)
      end
  end.

(** One iteration of the loop of [Queue::start]. *)
Definition loop_iter (q : Queue) (adm : Adm) (env : Env) : Step Adm :=
  match handle_event q (env_wait env) (env_instant_78 env) (env_epoch_78 env) with
  | HBreak => Break
  | HPanic => Panic
  | HCont q1 refresh_queue =>
      if negb (is_paused q1) then
        if refresh_queue || (next_wake_up q1 <=? env_instant_103 env) then
          match rescan q1 adm env with
          | None => Panic
          | Some (q2, adm2, trace) => Continue q2 adm2 trace
          end
        else Continue q1 adm []
      else
        match instant_checked_add (env_instant_198 env) 86400 with
        | None => Panic
        | Some w => Continue (set_next_wake_up w q1) adm []
        end
  end.
End Manager.

(** ** Message deadline queries (lines 204-232) *)

Inductive Status :=
| Scheduled
| Completed
| TemporaryFailure (reason : string)
| PermanentFailure (reason : string).

Record Schedule := {
  sched_due : Z;
  sched_inner : nat;
}.

Record Domain := {
  domain : string;
  retry : Schedule;
  notify : Schedule;
  expires : Z;
  status : Status;
}.

Record Message := {
  domains : list Domain;
}.

Definition is_pending (s : Status) : bool :=
  match s with
  | Scheduled | TemporaryFailure _ => true
  | _ => false
  end.

(** Loop body of [next_event] over [(next_event, has_events)]. *)
Definition next_event_step (acc : Z * bool) (d : Domain) : Z * bool :=
  let '(ne, has_events) := acc in
  if is_pending (status d) then
    let '(ne1, has1) :=
      if negb has_events || (sched_due (retry d) <? ne) then (sched_due (retry d), true)
      else (ne, has_events) in
    let ne2 := if sched_due (notify d) <? ne1 then sched_due (notify d) else ne1 in
    let ne3 := if expires d <? ne2 then expires d else ne2 in
    (ne3, has1)
  else (ne, has_events).

(** [Message::next_event]; [now] is the [now()] the accumulator starts from. *)
Definition next_event (now : Z) (m : Message) : option Z :=
  let '(ne, has_events) := fold_left next_event_step (domains m) (now, false) in
  if has_events then Some ne else None.

(** The spec's reading: the minimum of [retry], [notify] and [expires] over
    the domains in [Scheduled]/[TemporaryFailure], [None] without one. *)
Definition domain_deadline (d : Domain) : Z :=
  Z.min (Z.min (sched_due (retry d)) (sched_due (notify d))) (expires d).

Fixpoint min_deadline (ds : list Domain) : option Z :=
  match ds with
  | [] => None
  | d :: ds' =>
      if is_pending (status d) then
        Some (match min_deadline ds' with
              | None => domain_deadline d
              | Some a => Z.min (domain_deadline d) a
              end)
      else min_deadline ds'
  end.

Definition spec_next_event (m : Message) : option Z := min_deadline (domains m).

(** ** The other deadline queries of [Message] (lines 234-316) *)

Definition pending_domains (m : Message) : list Domain :=
  List.filter (fun d => is_pending (status d)) (domains m).

(** Body of [for (pos, domain) in .. .enumerate()] with
    [if pos == 0 || f(domain) < acc { acc = f(domain) }]. *)
Definition first_or_min_step (f : Domain -> Z) (acc : nat * Z) (d : Domain) : nat * Z :=
  let '(pos, cur) := acc in
  (S pos, if Nat.eqb pos 0 || (f d <? cur) then f d else cur).

Definition first_or_min (f : Domain -> Z) (now : Z) (m : Message) : Z :=
  (fold_left (first_or_min_step f) (pending_domains m) (0%nat, now)).2.

(** [Message::next_delivery_event], [Message::next_dsn] and
    [Message::expires]; [now] is the [now()] each starts from. *)
Definition next_delivery_event (now : Z) (m : Message) : Z :=
  first_or_min (fun d => sched_due (retry d)) now m.

Definition next_dsn (now : Z) (m : Message) : Z :=
  first_or_min (fun d => sched_due (notify d)) now m.

Definition message_expires (now : Z) (m : Message) : Z :=
  first_or_min expires now m.

(** [if v > instant && next_event.map_or(true, |ne| v < ne) { next_event = v }] *)
Definition take_after (instant v : Z) (next : option Z) : option Z :=
  if (instant <? v) && match next with None => true | Some ne => v <? ne end
  then Some v else next.

Definition next_event_after_step (instant : Z) (next : option Z) (d : Domain) : option Z :=
  if is_pending (status d) then
    take_after instant (expires d)
      (take_after instant (sched_due (notify d))
         (take_after instant (sched_due (retry d)) next))
  else next.

(** [Message::next_event_after]. *)
Definition next_event_after (instant : Z) (m : Message) : option Z :=
  fold_left (next_event_after_step instant) (domains m) None.

(** Reference minima used to state what the queries compute. *)
Fixpoint list_min (l : list Z) : option Z :=
  match l with
  | [] => None
  | x :: l' => Some (match list_min l' with None => x | Some y => Z.min x y end)
  end.

Definition pending_deadlines (m : Message) : list Z :=
  flat_map (fun d => [sched_due (retry d); sched_due (notify d); expires d]) (pending_domains m).

(** Minimum of two optional deadlines, [None] meaning "no deadline". *)
Definition omin (a b : option Z) : option Z :=
  match a, b with
  | None, x | x, None => x
  | Some x, Some y => Some (Z.min x y)
  end.

(** Queue ids dispatched in a rescan trace, in order. *)
Definition dispatched_ids (tr : list Outcome) : list QueueId :=
  flat_map (fun o => match o with Dispatched e => [Spool.queue_id e] | _ => [] end) tr.

(** ** A concrete admission state, for evaluation

    One global limiter whose counter is the whole state. *)
Definition global_limiter : ConcurrencyLimiter :=
  {| limiter_id := 0; max_concurrent := 2 |}.

Definition g_concurrent (adm : Z) (_ : ConcurrencyLimiter) : Z := adm.

Definition g_is_outbound_allowed (adm : Z) : Allowed * Z :=
  if adm <? max_concurrent global_limiter then (AllowedOk, adm + 1)
  else (Refused global_limiter, adm).

Definition g_loop_iter (QUEUE_REFRESH : Z) := loop_iter g_concurrent g_is_outbound_allowed QUEUE_REFRESH.

Definition mk_env (w : Wait) (t : Z) (batch : list Spool.QueueEvent) : Env :=
  {| env_wait := w; env_instant_78 := t; env_epoch_78 := t; env_instant_103 := t;
     env_epoch_104 := t; env_batch := batch; env_rng := fun i => i;
     env_instant_174 := t; env_epoch_183 := t; env_instant_198 := t |}.

Definition q0 : Queue :=
  {| on_hold := ∅; next_wake_up := 0; is_paused := false; next_cleanup := 600;
     queue_status := true |}.

Definition item (id : QueueId) (d : Z) : Spool.QueueEvent :=
  {| Spool.queue_id := id; Spool.due := d |}.
Arguments item id%_nat d%_Z.

Definition g_rescan (QUEUE_REFRESH : Z) := rescan g_concurrent g_is_outbound_allowed QUEUE_REFRESH.

Definition g_process_event := process_event g_concurrent g_is_outbound_allowed.

(** A concrete refresh ceiling (seconds) for the runs below.  [spool.rs],
    which defines [QUEUE_REFRESH], is not part of this snapshot, so every
    definition above takes the ceiling as a parameter. *)
Definition queue_refresh_upstream : Z := 300.

Definition q_in_flight : Queue := set_on_hold {[1%nat := InFlight]} q0.

Definition q_paused : Queue :=
  {| on_hold := ∅; next_wake_up := 86500; is_paused := true; next_cleanup := 600;
     queue_status := false |}.

Definition q_mixed_holds : Queue :=
  set_on_hold
    (<[1%nat := InFlight]> (<[2%nat := ConcurrencyLimited [global_limiter] None]>
      (<[3%nat := Locked 650]> (<[4%nat := Locked 800]>
        {[5%nat := ConcurrencyLimited [global_limiter] None]})))) q0.

Definition s_limited : Scan Z :=
  Build_Scan {[1%nat := ConcurrencyLimited [global_limiter] None]} 300 1.

Definition s_locked : Scan Z := Build_Scan {[1%nat := Locked 150]} 300 0.

Definition six_due : list Spool.QueueEvent :=
  [item 1 10; item 2 20; item 3 30; item 4 40; item 5 50; item 6 60].

Definition sched (d : Z) : Schedule := {| sched_due := d; sched_inner := 0 |}.

Definition dom (r n x : Z) (st : Status) : Domain :=
  {| domain := "example.org"%string; retry := sched r; notify := sched n; expires := x;
     status := st |}.

Definition msg_three : Message :=
  {| domains := [dom 500 900 2000 Scheduled; dom 300 400 1000 Completed;
                 dom 700 600 1500 (TemporaryFailure "timeout"%string)] |}.

Definition q_wake_500 : Queue := set_next_wake_up 500 q_in_flight.

(** * Properties *)

Lemma ltb_select_min (a b : Z) : (if a <? b then a else b) = Z.min a b.
Proof. destruct (Z.ltb_spec a b); lia. Qed.

(** ** Deadline queries *)

Lemma next_event_fold_has (ds : list Domain) (ne : Z) :
  fold_left next_event_step ds (ne, true) =
  (match min_deadline ds with
   | None => ne
   | Some v => Z.min ne v
   end, true).
Proof.
  revert ne. induction ds as [|d ds IH]; intros ne; [reflexivity|].
  cbn [fold_left min_deadline].
  unfold next_event_step at 2.
  destruct (is_pending (status d)) eqn:Hp.
  - cbn [negb orb].
    destruct (Z.ltb_spec (sched_due (retry d)) ne) as [Hr|Hr]; rewrite IH;
      destruct (min_deadline ds); f_equal;
      rewrite !ltb_select_min; unfold domain_deadline; lia.
  - rewrite IH. reflexivity.
Qed.

Lemma next_event_fold_none (ds : list Domain) (x : Z) :
  fold_left next_event_step ds (x, false) =
  match min_deadline ds with
  | None => (x, false)
  | Some v => (v, true)
  end.
Proof.
  revert x. induction ds as [|d ds IH]; intros x; [reflexivity|].
  cbn [fold_left min_deadline].
  unfold next_event_step at 2.
  destruct (is_pending (status d)) eqn:Hp.
  - cbn [negb orb]. rewrite next_event_fold_has.
    destruct (min_deadline ds); f_equal;
      rewrite !ltb_select_min; unfold domain_deadline; lia.
  - apply IH.
Qed.

(** C8: [next_event] returns the minimum of [retry], [notify] and [expires]
    over the domains in [Scheduled] or [TemporaryFailure], and [None] when
    there is no such domain; the result does not depend on the [now()] the
    loop starts from. *)
Theorem next_event_is_min_deadline (now : Z) (m : Message) :
  next_event now m = spec_next_event m.
Proof.
  destruct m as [ds]. unfold next_event, spec_next_event. cbn [domains].
  rewrite next_event_fold_none.
  destruct (min_deadline ds); reflexivity.
Qed.

(** ** Control events *)

(** C10: processing [OnHold{id, status}] inserts or overwrites the hold of
    [id] and changes nothing else, except [next_wake_up] for a [Locked]
    status, which moves to the computed instant exactly when that instant
    is earlier, and never later; the only other result is a panic, and only
    for a [Locked] status whose instant overflows. *)
Theorem on_hold_event_frame (q : Queue) (id : QueueId) (st : OnHold) (i e : Z) :
  match handle_event q (Received (Some (Ipc.OnHoldEvent id st))) i e with
  | HCont q' _ =>
      on_hold q' = <[id := st]> (on_hold q) /\
      is_paused q' = is_paused q /\
      next_cleanup q' = next_cleanup q /\
      queue_status q' = queue_status q /\
      next_wake_up q' <= next_wake_up q /\
      match st with
      | Locked until =>
          exists due_in,
            instant_checked_add i (wrapping_sub_u64 until e) = Some due_in /\
            next_wake_up q' = (if due_in <? next_wake_up q then due_in else next_wake_up q)
      | _ => next_wake_up q' = next_wake_up q
      end
  | HPanic =>
      exists until, st = Locked until /\
        instant_checked_add i (wrapping_sub_u64 until e) = None
  | HBreak => False
  end.
Proof.
  unfold handle_event.
  destruct st as [until| |]; cbn.
  - destruct (instant_checked_add i (wrapping_sub_u64 until e)) as [due_in|] eqn:Hadd.
    + destruct (Z.ltb_spec due_in (next_wake_up q)) as [Hlt|Hge]; cbn;
        (repeat split; try lia; exists due_in; split; [reflexivity|]);
        [rewrite (proj2 (Z.ltb_lt _ _) Hlt) | rewrite (proj2 (Z.ltb_ge _ _) Hge)];
        reflexivity.
    + exists until; split; [reflexivity | exact Hadd].
  - repeat split; lia.
  - repeat split; lia.
Qed.

(** C3: an [OnHold{id, Locked{until}}] event whose [until] is already
    behind the epoch time [now()] read by the handler makes the handler
    panic: [until - now()] wraps around on u64 and adding that duration to
    an [Instant] overflows. *)
Theorem locked_in_past_panics (q : Queue) (id : QueueId) (until i e : Z) :
  0 <= until -> until < e -> e < 2 ^ 63 -> 0 <= i ->
  handle_event q (Received (Some (Ipc.OnHoldEvent id (Locked until)))) i e = HPanic.
Proof.
  intros H0 Hlt Hbound Hi.
  unfold handle_event, instant_checked_add, wrapping_sub_u64, u64_modulus, i64_max.
  rewrite (Z.mod_eq (until - e) (2 ^ 64)) by lia.
  assert (Hdiv : (until - e) / 2 ^ 64 = -1).
  { symmetry. apply (Z.div_unique (until - e) (2 ^ 64) (-1) (until - e + 2 ^ 64)); lia. }
  rewrite Hdiv.
  destruct (Z.leb_spec (until - e - 2 ^ 64 * -1) (2 ^ 63 - 1)); [lia|].
  reflexivity.
Qed.

(** The timed wait at the top of the loop is clamped: never negative, and
    zero once [next_wake_up] has passed. *)
Lemma wait_duration_clamped (q : Queue) (now : Z) :
  0 <= wait_duration q now /\ (next_wake_up q <= now -> wait_duration q now = 0).
Proof. unfold wait_duration, duration_since. lia. Qed.

(** ** Hold evaluation in a rescan *)

Section Rescan_props.
Context {Adm : Type}.
Variable concurrent : Adm -> ConcurrencyLimiter -> Z.
Variable is_outbound_allowed : Adm -> Allowed * Adm.
Variable QUEUE_REFRESH : Z.

Local Abbreviation process_event := (process_event concurrent is_outbound_allowed).
Local Abbreviation process_events := (process_events concurrent is_outbound_allowed).
Local Abbreviation enforce_limits := (enforce_limits is_outbound_allowed).

Lemma enforce_limits_outcome (now : Z) (s : Scan Adm) (e : Spool.QueueEvent) :
  (exists adm', (enforce_limits now s e).1 =
     Build_Scan (<[Spool.queue_id e := InFlight]> (scan_on_hold s)) (scan_next_wake_up s) adm'
     /\ (enforce_limits now s e).2 = Dispatched e) \/
  (exists l adm', (enforce_limits now s e).1 =
     Build_Scan (<[Spool.queue_id e := ConcurrencyLimited [l] None]> (scan_on_hold s))
       (scan_next_wake_up s) adm'
     /\ (enforce_limits now s e).2 = Limited e).
Proof.
  unfold enforce_limits.
  destruct (is_outbound_allowed (scan_adm s)) as [[|l] adm'].
  - left. exists adm'. split; reflexivity.
  - right. exists l, adm'. split; reflexivity.
Qed.

(** C5: a due item held by [Locked{until}] is skipped while [now < until],
    with [until - now] folded into the running minimum of the next
    wake-up; once [now >= until] its hold is removed and it goes through
    admission, which dispatches it or marks it concurrency limited. *)
Theorem locked_hold_expiry (now until : Z) (s : Scan Adm) (e : Spool.QueueEvent) :
  Spool.due e <= now ->
  scan_on_hold s !! Spool.queue_id e = Some (Locked until) ->
  (now < until ->
     process_event now s e =
       (Build_Scan (scan_on_hold s) (Z.min (scan_next_wake_up s) (until - now)) (scan_adm s),
        Held e)) /\
  (until <= now ->
     process_event now s e = enforce_limits now (drop_hold (Spool.queue_id e) s) e /\
     scan_on_hold (drop_hold (Spool.queue_id e) s) !! Spool.queue_id e = None /\
     (process_event now s e).2 <> Held e /\
     (process_event now s e).2 <> NotDue e).
Proof.
  intros Hdue Hhold. unfold process_event; cbv zeta.
  rewrite (proj2 (Z.leb_le _ _) Hdue), Hhold. split.
  - intros Hlt. rewrite (proj2 (Z.ltb_lt _ _) Hlt).
    unfold fold_wake_up. rewrite ltb_select_min. f_equal. f_equal. lia.
  - intros Hge. rewrite (proj2 (Z.ltb_ge _ _) Hge).
    split; [reflexivity|]. split; [apply lookup_delete_eq|].
    destruct (enforce_limits_outcome now (drop_hold (Spool.queue_id e) s) e)
      as [[adm' [_ ->]] | [l [adm' [_ ->]]]]; split; discriminate.
Qed.

(** C4: a due item held by [ConcurrencyLimited{limiters, next_due}] is
    skipped (state untouched) unless one of its limiters has its counter
    below [max_concurrent] or [next_due] has elapsed; when one of them
    holds, the stale hold is removed and the item goes through admission. *)
Theorem concurrency_limited_admission (now : Z) (s : Scan Adm) (e : Spool.QueueEvent)
    (limiters : list ConcurrencyLimiter) (next_due : option Z) :
  Spool.due e <= now ->
  scan_on_hold s !! Spool.queue_id e = Some (ConcurrencyLimited limiters next_due) ->
  ((forall l, l ∈ limiters -> max_concurrent l <= concurrent (scan_adm s) l) ->
   (forall d, next_due = Some d -> now < d) ->
     process_event now s e = (s, Held e)) /\
  ((exists l, l ∈ limiters /\ concurrent (scan_adm s) l < max_concurrent l) \/
   (exists d, next_due = Some d /\ d <= now) ->
     process_event now s e = enforce_limits now (drop_hold (Spool.queue_id e) s) e /\
     scan_on_hold (drop_hold (Spool.queue_id e) s) !! Spool.queue_id e = None /\
     (process_event now s e).2 <> Held e /\
     (process_event now s e).2 <> NotDue e).
Proof.
  intros Hdue Hhold. unfold process_event; cbv zeta.
  rewrite (proj2 (Z.leb_le _ _) Hdue), Hhold. split.
  - intros Hfull Hnd.
    assert (Hex : existsb (limiter_has_room concurrent (scan_adm s)) limiters = false).
    { apply not_true_is_false. intros Hin. apply existsb_exists in Hin.
      destruct Hin as [l [Hl Hroom]]. unfold limiter_has_room in Hroom.
      apply Z.ltb_lt in Hroom.
      specialize (Hfull l (proj2 (list_elem_of_In _ _) Hl)). lia. }
    assert (Hd : match next_due with Some d => d <=? now | None => false end = false).
    { destruct next_due as [d|]; [|reflexivity].
      specialize (Hnd d eq_refl). apply Z.leb_gt. lia. }
    rewrite Hex, Hd. reflexivity.
  - intros Hok.
    assert (Hgo : existsb (limiter_has_room concurrent (scan_adm s)) limiters
                  || match next_due with Some d => d <=? now | None => false end = true).
    { destruct Hok as [[l [Hl Hroom]] | [d [-> Hd]]].
      - apply orb_true_intro. left. apply existsb_exists. exists l.
        split; [apply list_elem_of_In; exact Hl|]. apply Z.ltb_lt. exact Hroom.
      - apply orb_true_intro. right. apply Z.leb_le. exact Hd. }
    rewrite Hgo. cbn [negb].
    split; [reflexivity|]. split; [apply lookup_delete_eq|].
    destruct (enforce_limits_outcome now (drop_hold (Spool.queue_id e) s) e)
      as [[adm' [_ ->]] | [l [adm' [_ ->]]]]; split; discriminate.
Qed.
End Rescan_props.

(** ** The shuffle is a permutation *)

Lemma insert_perm_delete {A} (l : list A) (i : nat) (y : A) :
  (i < length l)%nat -> <[i := y]> l ≡ₚ y :: delete i l.
Proof.
  intros Hi.
  rewrite (delete_Permutation (<[i := y]> l) i y) by (apply list_lookup_insert_eq; exact Hi).
  rewrite !delete_take_drop, take_insert_ge, drop_insert_lt by lia.
  reflexivity.
Qed.

Lemma swap_perm {A} (i j : nat) (l : list A) : swap i j l ≡ₚ l.
Proof.
  unfold swap.
  destruct (l !! i) as [x|] eqn:Hi; [|reflexivity].
  destruct (l !! j) as [y|] eqn:Hj; [|reflexivity].
  destruct (decide (i = j)) as [->|Hne].
  - rewrite Hi in Hj. injection Hj as ->.
    rewrite (list_insert_id l j y Hi), (list_insert_id l j y Hi). reflexivity.
  - assert (Hj1 : <[i := y]> l !! j = Some y) by (rewrite list_lookup_insert_ne; auto).
    assert (Hlen : (j < length (<[i := y]> l))%nat)
      by (apply lookup_lt_is_Some_1; rewrite Hj1; eauto).
    assert (Hil : (i < length l)%nat) by (apply lookup_lt_is_Some_1; rewrite Hi; eauto).
    rewrite (insert_perm_delete _ j x Hlen).
    assert (Hd : delete j (<[i := y]> l) ≡ₚ delete i l).
    { apply (Permutation_cons_inv (a := y)).
      rewrite <- (delete_Permutation _ j y Hj1).
      apply insert_perm_delete. exact Hil. }
    rewrite Hd. symmetry. apply delete_Permutation. exact Hi.
Qed.

Lemma shuffle_perm {A} (rng : nat -> nat) (l : list A) : shuffle rng l ≡ₚ l.
Proof.
  unfold shuffle. generalize (length l - 1)%nat as i.
  intros i. revert l. induction i as [|k IH]; intros l; [reflexivity|].
  cbn [shuffle_down]. rewrite IH. apply swap_perm.
Qed.

(** ** Traces of a rescan *)

Section Trace_props.
Context {Adm : Type}.
Variable concurrent : Adm -> ConcurrencyLimiter -> Z.
Variable is_outbound_allowed : Adm -> Allowed * Adm.
Variable QUEUE_REFRESH : Z.

Local Abbreviation process_event := (process_event concurrent is_outbound_allowed).
Local Abbreviation process_events := (process_events concurrent is_outbound_allowed).
Local Abbreviation enforce_limits := (enforce_limits is_outbound_allowed).
Local Abbreviation rescan := (rescan concurrent is_outbound_allowed QUEUE_REFRESH).
Local Abbreviation loop_iter := (loop_iter concurrent is_outbound_allowed QUEUE_REFRESH).

(** What one item's outcome is allowed to be. *)
Definition outcome_fits (now : Z) (s s' : Scan Adm) (o : Outcome) : Prop :=
  match o with
  | NotDue e => now < Spool.due e /\ scan_on_hold s' = scan_on_hold s
  | Held e => Spool.due e <= now /\ scan_on_hold s' = scan_on_hold s
  | Dispatched e =>
      Spool.due e <= now /\ scan_on_hold s' !! Spool.queue_id e = Some InFlight
  | Limited e =>
      Spool.due e <= now /\
      exists l, scan_on_hold s' !! Spool.queue_id e = Some (ConcurrencyLimited [l] None)
  end.

Lemma enforce_limits_fits (now : Z) (s s0 : Scan Adm) (e : Spool.QueueEvent) :
  Spool.due e <= now ->
  outcome_event (enforce_limits now s e).2 = e /\
  outcome_fits now s0 (enforce_limits now s e).1 (enforce_limits now s e).2.
Proof.
  intros Hdue.
  destruct (enforce_limits_outcome is_outbound_allowed now s e)
    as [[adm' [-> ->]] | [l [adm' [-> ->]]]]; cbn; split; auto.
  - split; [exact Hdue|]. apply lookup_insert_eq.
  - split; [exact Hdue|]. exists l. apply lookup_insert_eq.
Qed.

Lemma process_event_fits (now : Z) (s : Scan Adm) (e : Spool.QueueEvent) :
  outcome_event (process_event now s e).2 = e /\
  outcome_fits now s (process_event now s e).1 (process_event now s e).2.
Proof.
  unfold process_event; cbv zeta.
  destruct (Z.leb_spec (Spool.due e) now) as [Hdue|Hdue].
  - destruct (scan_on_hold s !! Spool.queue_id e) as [[until|limiters next_due|]|] eqn:Hh.
    + destruct (now <? until); [cbn; auto|]. apply enforce_limits_fits. exact Hdue.
    + destruct (negb _); [cbn; auto|]. apply enforce_limits_fits. exact Hdue.
    + cbn; auto.
    + apply enforce_limits_fits. exact Hdue.
  - cbn. auto.
Qed.

(** The trace of [process_events] has one outcome per entry, in order. *)
Lemma process_events_trace (now : Z) (s : Scan Adm) (es : list Spool.QueueEvent) :
  outcome_event <$> (process_events now s es).2 = es.
Proof.
  revert s. induction es as [|e es IH]; intros s; [reflexivity|].
  cbn [process_events].
  destruct (process_event now s e) as [s1 o] eqn:He.
  specialize (IH s1).
  destruct (process_events now s1 es) as [s2 os] eqn:Hes.
  cbn in *. rewrite IH. f_equal.
  pose proof (proj1 (process_event_fits now s e)) as Hf. rewrite He in Hf. exact Hf.
Qed.

Lemma enforce_limits_effect (now : Z) (s s1 : Scan Adm) (e : Spool.QueueEvent) :
  Spool.due e <= now ->
  admission_prior now (scan_on_hold s !! Spool.queue_id e) ->
  scan_next_wake_up s1 = scan_next_wake_up s ->
  (forall x, <[Spool.queue_id e := x]> (scan_on_hold s1) = <[Spool.queue_id e := x]> (scan_on_hold s)) ->
  outcome_effect now s (enforce_limits now s1 e).1 (enforce_limits now s1 e).2.
Proof.
  intros Hdue Hprior Hw Hins.
  destruct (enforce_limits_outcome is_outbound_allowed now s1 e)
    as [[adm' [-> ->]] | [l [adm' [-> ->]]]]; cbn.
  - repeat split; auto.
  - repeat split; auto. exists l. apply Hins.
Qed.

Lemma process_event_effect (now : Z) (s : Scan Adm) (e : Spool.QueueEvent) :
  outcome_effect now s (process_event now s e).1 (process_event now s e).2.
Proof.
  assert (Hdrop : forall x, <[Spool.queue_id e := x]> (scan_on_hold (drop_hold (Spool.queue_id e) s))
                            = <[Spool.queue_id e := x]> (scan_on_hold s)).
  { intros x. cbn. apply insert_delete_eq. }
  unfold process_event; cbv zeta.
  destruct (Z.leb_spec (Spool.due e) now) as [Hdue|Hdue].
  - destruct (scan_on_hold s !! Spool.queue_id e) as [[until|limiters next_due|]|] eqn:Hh.
    + destruct (Z.ltb_spec now until) as [Hlt|Hge].
      * cbn. repeat split; auto. exists (Locked until). split; [exact Hh|].
        split; [exact Hlt | rewrite ltb_select_min; lia].
      * apply enforce_limits_effect; auto. rewrite Hh. cbn. exact Hge.
    + destruct (negb _).
      * cbn. repeat split; auto. exists (ConcurrencyLimited limiters next_due). auto.
      * apply enforce_limits_effect; auto. rewrite Hh. exact I.
    + cbn. repeat split; auto. exists InFlight. auto.
    + apply enforce_limits_effect; auto. rewrite Hh. exact I.
  - cbn. rewrite ltb_select_min. repeat split; auto. lia.
Qed.

Lemma process_events_app (now : Z) (s : Scan Adm) (l1 l2 : list Spool.QueueEvent) :
  process_events now s (l1 ++ l2) =
  ((process_events now (process_events now s l1).1 l2).1,
   (process_events now s l1).2 ++ (process_events now (process_events now s l1).1 l2).2).
Proof.
  revert s. induction l1 as [|e l1 IH]; intros s.
  - cbn. destruct (process_events now s l2); reflexivity.
  - cbn [app process_events]. destruct (process_event now s e) as [s1 o].
    rewrite IH. destruct (process_events now s1 l1) as [s2 os].
    destruct (process_events now s2 l2) as [s3 os']. reflexivity.
Qed.

Lemma process_events_length (now : Z) (s : Scan Adm) (es : list Spool.QueueEvent) :
  length (process_events now s es).2 = length es.
Proof.
  rewrite <- (process_events_trace now s es) at 2. rewrite length_fmap. reflexivity.
Qed.

(** The item at position [length pre] of the pass sees the state the
    items before it left, and its outcome is at the same position of the
    trace. *)
Lemma process_events_middle (now : Z) (s : Scan Adm) (pre post : list Spool.QueueEvent)
    (e : Spool.QueueEvent) :
  let s1 := (process_events now s pre).1 in
  (process_events now s (pre ++ e :: post)).2 !! length pre = Some (process_event now s1 e).2 /\
  (process_events now s (pre ++ [e])).1 = (process_event now s1 e).1.
Proof.
  cbv zeta. rewrite !process_events_app. cbn [process_events snd fst].
  destruct (process_event now (process_events now s pre).1 e) as [s2 o].
  destruct (process_events now s2 post) as [s3 os]. cbn. split; [|reflexivity].
  apply list_lookup_middle. symmetry. apply process_events_length.
Qed.
End Trace_props.

Lemma cleanup_lookup (active : gset QueueId) (now : Z) (m : gmap QueueId OnHold)
    (id : QueueId) (h : OnHold) :
  cleanup active now m !! id = Some h <-> m !! id = Some h /\ retain_hold active now id h = true.
Proof. unfold cleanup. apply map_lookup_filter_Some. Qed.

Lemma cleanup_skip_empty (active : gset QueueId) (now : Z) (m : gmap QueueId OnHold) :
  (if bool_decide (m = ∅) then m else cleanup active now m) = cleanup active now m.
Proof.
  case_bool_decide as Hm; [|reflexivity].
  subst m. unfold cleanup. symmetry. apply map_filter_empty.
Qed.

Lemma retain_hold_spec (active : gset QueueId) (now : Z) (id : QueueId) (h : OnHold) :
  retain_hold active now id h = true <->
  match h with
  | InFlight => True
  | Locked until => now < until
  | ConcurrencyLimited _ _ => id ∈ active
  end.
Proof.
  destruct h as [until| |]; cbn.
  - apply Z.ltb_lt.
  - apply bool_decide_eq_true.
  - split; auto.
Qed.

Lemma rescan_order_perm (env : Env) : rescan_order env ≡ₚ env_batch env.
Proof.
  unfold rescan_order. destruct (5 <? length (env_batch env))%nat; [apply shuffle_perm|reflexivity].
Qed.

Section Loop_props.
Context {Adm : Type}.
Variable concurrent : Adm -> ConcurrencyLimiter -> Z.
Variable is_outbound_allowed : Adm -> Allowed * Adm.
Variable QUEUE_REFRESH : Z.

Local Abbreviation process_event := (process_event concurrent is_outbound_allowed).
Local Abbreviation process_events := (process_events concurrent is_outbound_allowed).
Local Abbreviation rescan := (rescan concurrent is_outbound_allowed QUEUE_REFRESH).
Local Abbreviation loop_iter := (loop_iter concurrent is_outbound_allowed QUEUE_REFRESH).

Definition rescan_scan (q : Queue) (adm : Adm) (env : Env) : Scan Adm * list Outcome :=
  process_events (env_epoch_104 env) (Build_Scan (on_hold q) QUEUE_REFRESH adm) (rescan_order env).

Lemma rescan_spec (q : Queue) (adm : Adm) (env : Env) (q' : Queue) (adm' : Adm)
    (tr : list Outcome) :
  rescan q adm env = Some (q', adm', tr) ->
  let r := rescan_scan q adm env in
  let m := scan_on_hold r.1 in
  let inow := env_instant_174 env in
  tr = r.2 /\ adm' = scan_adm r.1 /\
  instant_checked_add inow (scan_next_wake_up r.1) = Some (next_wake_up q') /\
  is_paused q' = is_paused q /\ queue_status q' = queue_status q /\
  (next_cleanup q <= inow ->
     instant_checked_add inow CLEANUP_INTERVAL = Some (next_cleanup q') /\
     on_hold q' = cleanup (list_to_set (Spool.queue_id <$> rescan_order env))
                    (env_epoch_183 env) m) /\
  (inow < next_cleanup q -> next_cleanup q' = next_cleanup q /\ on_hold q' = m).
Proof.
  unfold rescan, rescan_scan. cbv zeta.
  destruct (process_events (env_epoch_104 env) (Build_Scan (on_hold q) QUEUE_REFRESH adm)
              (rescan_order env)) as [s trace].
  cbn [fst snd].
  destruct (Z.leb_spec (next_cleanup q) (env_instant_174 env)) as [Hc|Hc].
  - destruct (instant_checked_add (env_instant_174 env) CLEANUP_INTERVAL) as [nc|] eqn:Hnc;
      [|discriminate].
    destruct (instant_checked_add (env_instant_174 env) (scan_next_wake_up s)) as [w|] eqn:Hw;
      [|discriminate].
    intros H. injection H as <- <- <-. cbn.
    repeat split; try reflexivity; try lia.
    apply cleanup_skip_empty.
  - destruct (instant_checked_add (env_instant_174 env) (scan_next_wake_up s)) as [w|] eqn:Hw;
      [|discriminate].
    intros H. injection H as <- <- <-. cbn.
    repeat split; try reflexivity; lia.
Qed.

(** C6: when its 10-minute timer has run out, the cleanup at the end of a
    rescan keeps exactly the [InFlight] holds, the [Locked{until}] holds
    whose [until] is still ahead of [now()], and the [ConcurrencyLimited]
    holds whose id is in the batch the store returned, drops every other
    hold and re-arms the timer 10 minutes ahead; before the timer runs
    out no hold is dropped. *)
Theorem cleanup_retention (q : Queue) (adm : Adm) (env : Env) (q' : Queue) (adm' : Adm)
    (tr : list Outcome) :
  rescan q adm env = Some (q', adm', tr) ->
  let m := scan_on_hold (rescan_scan q adm env).1 in
  (next_cleanup q <= env_instant_174 env ->
     next_cleanup q' = env_instant_174 env + CLEANUP_INTERVAL /\
     forall id h, on_hold q' !! id = Some h <->
       m !! id = Some h /\
       match h with
       | InFlight => True
       | Locked until => env_epoch_183 env < until
       | ConcurrencyLimited _ _ => id ∈ Spool.queue_id <$> env_batch env
       end) /\
  (env_instant_174 env < next_cleanup q -> next_cleanup q' = next_cleanup q /\ on_hold q' = m).
Proof.
  intros Hr m.
  destruct (rescan_spec q adm env q' adm' tr Hr) as (_ & _ & _ & _ & _ & Hfire & Hwait).
  split; [|exact Hwait].
  intros Hc. destruct (Hfire Hc) as [Hnc Hm]. split.
  - unfold instant_checked_add in Hnc.
    destruct (_ && _); [injection Hnc as <-; reflexivity | discriminate].
  - intros id h. rewrite Hm, cleanup_lookup, retain_hold_spec.
    destruct h as [until| |]; try reflexivity.
    rewrite elem_of_list_to_set, (rescan_order_perm env). reflexivity.
Qed.
End Loop_props.

Section Loop_props2.
Context {Adm : Type}.
Variable concurrent : Adm -> ConcurrencyLimiter -> Z.
Variable is_outbound_allowed : Adm -> Allowed * Adm.
Variable QUEUE_REFRESH : Z.

Local Abbreviation process_event := (process_event concurrent is_outbound_allowed).
Local Abbreviation process_events := (process_events concurrent is_outbound_allowed).
Local Abbreviation rescan := (rescan concurrent is_outbound_allowed QUEUE_REFRESH).
Local Abbreviation rescan_scan := (rescan_scan concurrent is_outbound_allowed QUEUE_REFRESH).
Local Abbreviation loop_iter := (loop_iter concurrent is_outbound_allowed QUEUE_REFRESH).

(** C7: the batch is processed shuffled exactly when it has more than 5
    entries (the order is always a permutation of the batch); the trace
    has exactly one outcome per entry, in processing order.  The entry at
    each position of the pass, taken in the scan state the entries before
    it left, gets the outcome at that position of the trace, with this
    effect on the state: an entry with [due > now] is never dispatched and
    only folds [due - now] into the running wake-up minimum; an entry with
    [due <= now] is dispatched (with [InFlight] inserted), marked
    concurrency limited (with that hold inserted), both only when it had
    no hold, an expired lock or a [ConcurrencyLimited] hold, or skipped
    because of the hold it has, which stays unchanged. *)
Theorem rescan_shuffle_and_outcomes (q : Queue) (adm : Adm) (env : Env) (q' : Queue)
    (adm' : Adm) (tr : list Outcome) :
  rescan q adm env = Some (q', adm', tr) ->
  rescan_order env =
    (if (5 <? length (env_batch env))%nat then shuffle (env_rng env) (env_batch env)
     else env_batch env) /\
  rescan_order env ≡ₚ env_batch env /\
  outcome_event <$> tr = rescan_order env /\
  (forall pre e post, rescan_order env = pre ++ e :: post ->
     let now := env_epoch_104 env in
     let s := (process_events now (Build_Scan (on_hold q) QUEUE_REFRESH adm) pre).1 in
     let r := process_event now s e in
     tr !! length pre = Some r.2 /\
     (process_events now (Build_Scan (on_hold q) QUEUE_REFRESH adm) (pre ++ [e])).1 = r.1 /\
     outcome_effect now s r.1 r.2 /\
     (now < Spool.due e <-> r.2 = NotDue e)).
Proof.
  intros Hr.
  destruct (rescan_spec concurrent is_outbound_allowed QUEUE_REFRESH q adm env q' adm' tr Hr)
    as (Htr & _).
  cbv zeta in Htr. unfold rescan_scan in Htr.
  split; [reflexivity|]. split; [apply rescan_order_perm|].
  split; [rewrite Htr; apply process_events_trace|].
  intros pre e post Hord. cbv zeta.
  destruct (process_events_middle concurrent is_outbound_allowed (env_epoch_104 env)
    (Build_Scan (on_hold q) QUEUE_REFRESH adm) pre post e) as [Hmid Hstep].
  cbv zeta in Hmid, Hstep. rewrite <- Hord, <- Htr in Hmid.
  split; [exact Hmid|]. split; [exact Hstep|].
  set (s := (process_events (env_epoch_104 env) (Build_Scan (on_hold q) QUEUE_REFRESH adm) pre).1).
  pose proof (process_event_effect concurrent is_outbound_allowed (env_epoch_104 env) s e) as Heff.
  pose proof (proj1 (process_event_fits concurrent is_outbound_allowed (env_epoch_104 env) s e))
    as Hev.
  split; [exact Heff|].
  destruct (process_event (env_epoch_104 env) s e) as [s' o].
  cbn in Heff, Hev |- *. subst e.
  destruct o as [e|e|e|e]; cbn in Heff |- *; split; intros H; try discriminate; try lia;
    try reflexivity; exact (proj1 Heff).
Qed.

(** C9 (as the code does it): a rescan whose batch is a single item due
    at [T > now], with no holds, dispatches nothing and sets
    [next_wake_up] to the end-of-rescan [Instant] plus
    [min(T - now, QUEUE_REFRESH)] seconds. *)
Theorem single_pending_wake_up (q : Queue) (adm : Adm) (env : Env) (e : Spool.QueueEvent)
    (q' : Queue) (adm' : Adm) (tr : list Outcome) :
  env_batch env = [e] ->
  env_epoch_104 env < Spool.due e ->
  on_hold q = ∅ ->
  rescan q adm env = Some (q', adm', tr) ->
  tr = [NotDue e] /\ on_hold q' = ∅ /\
  next_wake_up q' =
    env_instant_174 env + Z.min (Spool.due e - env_epoch_104 env) QUEUE_REFRESH.
Proof.
  intros Hb Hdue Hempty Hr.
  destruct (rescan_spec concurrent is_outbound_allowed QUEUE_REFRESH q adm env q' adm' tr Hr)
    as (Htr & _ & Hw & _ & _ & Hfire & Hwait).
  unfold rescan_scan, rescan_order in *. rewrite Hb in *. cbn in Htr, Hw, Hfire, Hwait.
  unfold process_event in *. cbv zeta in *.
  rewrite (proj2 (Z.leb_gt _ _) Hdue) in *. cbn in Htr, Hw, Hfire, Hwait.
  rewrite Hempty in *.
  split; [exact Htr|]. split.
  - destruct (Z.leb_spec (next_cleanup q) (env_instant_174 env)) as [Hc|Hc].
    + rewrite (proj2 (Hfire Hc)). unfold cleanup. apply map_filter_empty.
    + exact (proj2 (Hwait Hc)).
  - unfold instant_checked_add in Hw. rewrite ltb_select_min in Hw.
    destruct (_ && _); [injection Hw as <-; reflexivity | discriminate].
Qed.
End Loop_props2.

(** ** In-flight holds across one loop iteration *)

Lemma handle_event_keeps_in_flight (q : Queue) (w : Wait) (i e : Z) (id : QueueId)
    (q1 : Queue) (r : bool) :
  handle_event q w i e = HCont q1 r ->
  on_hold q !! id = Some InFlight ->
  w <> Received (Some (Ipc.WorkerDone id)) ->
  w <> Received (Some (Ipc.Refresh (Some id))) ->
  (forall st, w <> Received (Some (Ipc.OnHoldEvent id st))) ->
  on_hold q1 !! id = Some InFlight.
Proof.
  intros Hh Hin Hwd Hrf Hoh.
  destruct w as [|[[[id'|]|id'|id' st|p|]|]]; cbn in Hh; try discriminate.
  - injection Hh as <- _. exact Hin.
  - injection Hh as <- _. cbn. rewrite lookup_delete_ne; [exact Hin|].
    intros ->. apply Hrf. reflexivity.
  - injection Hh as <- _. exact Hin.
  - injection Hh as <- _. cbn. rewrite lookup_delete_ne; [exact Hin|].
    intros ->. apply Hwd. reflexivity.
  - assert (Hne : id' <> id) by (intros ->; apply (Hoh st); reflexivity).
    destruct st as [until| |].
    + destruct (instant_checked_add i (wrapping_sub_u64 until e)); [|discriminate].
      destruct (_ <? _); injection Hh as <- _; cbn; rewrite lookup_insert_ne; auto.
    + injection Hh as <- _. cbn. rewrite lookup_insert_ne; auto.
    + injection Hh as <- _. cbn. rewrite lookup_insert_ne; auto.
  - injection Hh as <- _. exact Hin.
Qed.

Lemma handle_event_clears (q : Queue) (w : Wait) (i e : Z) (id : QueueId) (q1 : Queue) (r : bool) :
  w = Received (Some (Ipc.WorkerDone id)) \/ w = Received (Some (Ipc.Refresh (Some id))) ->
  handle_event q w i e = HCont q1 r ->
  on_hold q1 !! id = None.
Proof.
  intros [-> | ->] Hh; cbn in Hh; injection Hh as <- _; apply lookup_delete_eq.
Qed.

Section In_flight_props.
Context {Adm : Type}.
Variable concurrent : Adm -> ConcurrencyLimiter -> Z.
Variable is_outbound_allowed : Adm -> Allowed * Adm.
Variable QUEUE_REFRESH : Z.

Local Abbreviation process_event := (process_event concurrent is_outbound_allowed).
Local Abbreviation process_events := (process_events concurrent is_outbound_allowed).
Local Abbreviation rescan := (rescan concurrent is_outbound_allowed QUEUE_REFRESH).
Local Abbreviation loop_iter := (loop_iter concurrent is_outbound_allowed QUEUE_REFRESH).

Lemma process_event_other (now : Z) (s : Scan Adm) (e : Spool.QueueEvent) (id : QueueId) :
  Spool.queue_id e <> id ->
  scan_on_hold (process_event now s e).1 !! id = scan_on_hold s !! id.
Proof.
  intros Hne. unfold process_event; cbv zeta.
  assert (Hadm : forall s0, scan_on_hold (enforce_limits is_outbound_allowed now s0 e).1 !! id
                            = scan_on_hold s0 !! id).
  { intros s0. unfold enforce_limits.
    destruct (is_outbound_allowed (scan_adm s0)) as [[|l] adm']; cbn;
      apply lookup_insert_ne; exact Hne. }
  assert (Hdrop : scan_on_hold (drop_hold (Spool.queue_id e) s) !! id = scan_on_hold s !! id).
  { cbn. apply lookup_delete_ne. exact Hne. }
  destruct (Spool.due e <=? now); [|reflexivity].
  destruct (scan_on_hold s !! Spool.queue_id e) as [[until|limiters next_due|]|].
  - destruct (now <? until); [reflexivity|]. rewrite Hadm. exact Hdrop.
  - destruct (negb _); [reflexivity|]. rewrite Hadm. exact Hdrop.
  - reflexivity.
  - apply Hadm.
Qed.

Lemma process_events_keep_in_flight (now : Z) (s : Scan Adm) (es : list Spool.QueueEvent)
    (id : QueueId) :
  scan_on_hold s !! id = Some InFlight ->
  scan_on_hold (process_events now s es).1 !! id = Some InFlight /\
  (forall e, Dispatched e ∈ (process_events now s es).2 -> Spool.queue_id e <> id).
Proof.
  revert s. induction es as [|e es IH]; intros s Hin.
  - split; [exact Hin|]. intros e' He'. cbn in He'. set_solver.
  - cbn [process_events].
    destruct (process_event now s e) as [s1 o] eqn:He.
    assert (Hs1 : scan_on_hold s1 !! id = Some InFlight /\
                  forall e', o = Dispatched e' -> Spool.queue_id e' <> id).
    { destruct (decide (Spool.queue_id e = id)) as [Heq|Hne].
      - unfold process_event in He; cbv zeta in He. rewrite Heq, Hin in He.
        destruct (Spool.due e <=? now); injection He as <- <-.
        + split; [exact Hin | discriminate].
        + split; [exact Hin | discriminate].
      - pose proof (process_event_other now s e id Hne) as Ho. rewrite He in Ho.
        split; [cbn in Ho; rewrite Ho; exact Hin|].
        intros e' ->. pose proof (proj1 (process_event_fits concurrent is_outbound_allowed now s e))
          as Hev. rewrite He in Hev. cbn in Hev. subst e'. exact Hne. }
    destruct Hs1 as [Hs1 Ho].
    destruct (IH s1 Hs1) as [IH1 IH2].
    destruct (process_events now s1 es) as [s2 os]. cbn in *.
    split; [exact IH1|].
    intros e' He'. apply elem_of_cons in He' as [He'|He'].
    + apply Ho. symmetry. exact He'.
    + apply IH2. exact He'.
Qed.
End In_flight_props.

Section Iteration_props.
Context {Adm : Type}.
Variable concurrent : Adm -> ConcurrencyLimiter -> Z.
Variable is_outbound_allowed : Adm -> Allowed * Adm.
Variable QUEUE_REFRESH : Z.

Local Abbreviation process_events := (process_events concurrent is_outbound_allowed).
Local Abbreviation rescan := (rescan concurrent is_outbound_allowed QUEUE_REFRESH).
Local Abbreviation loop_iter := (loop_iter concurrent is_outbound_allowed QUEUE_REFRESH).

(** C1 (as the code does it): across one loop iteration an [InFlight]
    hold of [id] survives, and [id] is not dispatched, unless the
    iteration's event is [WorkerDone(id)], [Refresh(Some(id))] or an
    [OnHold] event for [id]: neither a timeout, a [Refresh(None)], a
    [Paused] event, an event for another id, the rescan nor the periodic
    cleanup removes it.  [WorkerDone(id)] and [Refresh(Some(id))] both
    clear it. *)
Theorem in_flight_until_cleared (q : Queue) (adm : Adm) (env : Env) (id : QueueId) :
  on_hold q !! id = Some InFlight ->
  ((env_wait env <> Received (Some (Ipc.WorkerDone id)) ->
    env_wait env <> Received (Some (Ipc.Refresh (Some id))) ->
    (forall st, env_wait env <> Received (Some (Ipc.OnHoldEvent id st))) ->
    match loop_iter q adm env with
    | Continue q' _ tr =>
        on_hold q' !! id = Some InFlight /\
        forall e, Dispatched e ∈ tr -> Spool.queue_id e <> id
    | _ => True
    end) /\
   (forall q1 r,
      env_wait env = Received (Some (Ipc.WorkerDone id)) \/
      env_wait env = Received (Some (Ipc.Refresh (Some id))) ->
      handle_event q (env_wait env) (env_instant_78 env) (env_epoch_78 env) = HCont q1 r ->
      on_hold q1 !! id = None)).
Proof.
  intros Hin. split.
  - intros Hwd Hrf Hoh. unfold loop_iter.
    destruct (handle_event q (env_wait env) (env_instant_78 env) (env_epoch_78 env))
      as [| |q1 r] eqn:Hh; [exact I | exact I|].
    pose proof (handle_event_keeps_in_flight q (env_wait env) _ _ id q1 r Hh Hin Hwd Hrf Hoh)
      as Hq1.
    destruct (negb (is_paused q1)).
    + destruct (r || (next_wake_up q1 <=? env_instant_103 env)).
      * destruct (rescan q1 adm env) as [[[q2 adm2] tr]|] eqn:Hr; [|exact I].
        destruct (rescan_spec concurrent is_outbound_allowed QUEUE_REFRESH q1 adm env q2 adm2 tr Hr)
          as (Htr & _ & _ & _ & _ & Hfire & Hwait).
        cbv zeta in *. unfold rescan_scan in *.
        destruct (process_events_keep_in_flight concurrent is_outbound_allowed
                    (env_epoch_104 env) (Build_Scan (on_hold q1) QUEUE_REFRESH adm)
                    (rescan_order env) id Hq1) as [Hk Hnd].
        split; [|rewrite Htr; exact Hnd].
        destruct (Z.leb_spec (next_cleanup q1) (env_instant_174 env)) as [Hc|Hc].
        -- rewrite (proj2 (Hfire Hc)), cleanup_lookup. split; [exact Hk | reflexivity].
        -- rewrite (proj2 (Hwait Hc)). exact Hk.
      * split; [exact Hq1|]. intros e He. cbn in He. set_solver.
    + destruct (instant_checked_add (env_instant_198 env) 86400); [|exact I].
      split; [exact Hq1|]. intros e He. cbn in He. set_solver.
  - intros q1 r Hw Hh. exact (handle_event_clears q _ _ _ id q1 r Hw Hh).
Qed.

(** C2 (as the code does it): when the pause flag is set after the
    event, the iteration does no rescan and no dispatch and sets
    [next_wake_up] to [Instant::now() + 86400 s]; a [Paused(false)] event
    clears the flag but does not force a rescan: the iteration rescans
    only when [next_wake_up] has already passed. *)
Theorem pause_and_resume (q : Queue) (adm : Adm) (env : Env) :
  (forall q1 r,
     handle_event q (env_wait env) (env_instant_78 env) (env_epoch_78 env) = HCont q1 r ->
     is_paused q1 = true ->
     loop_iter q adm env =
       match instant_checked_add (env_instant_198 env) 86400 with
       | Some w => Continue (set_next_wake_up w q1) adm []
       | None => Panic
       end) /\
  (env_wait env = Received (Some (Ipc.Paused false)) ->
     loop_iter q adm env =
       if next_wake_up q <=? env_instant_103 env then
         match rescan (set_paused false q) adm env with
         | Some (q2, adm2, tr) => Continue q2 adm2 tr
         | None => Panic
         end
       else Continue (set_paused false q) adm []).
Proof.
  split.
  - intros q1 r Hh Hp. unfold loop_iter. rewrite Hh, Hp. reflexivity.
  - intros Hw. unfold loop_iter. rewrite Hw. cbn [handle_event].
    cbn [is_paused set_paused negb orb next_wake_up].
    destruct (next_wake_up q <=? env_instant_103 env); [|reflexivity].
    destruct (rescan _ adm env) as [[[q2 adm2] tr]|]; reflexivity.
Qed.
End Iteration_props.

(** * Witnesses and counterexamples on concrete runs *)

Lemma locked_in_past_panics_witness :
  0 <= 99 /\ 99 < 100 /\ 100 < 2 ^ 63 /\ 0 <= 5 /\
  handle_event q0 (Received (Some (Ipc.OnHoldEvent 1%nat (Locked 99)))) 5 100 = HPanic.
Proof.
  split; [lia|]. split; [lia|]. split; [lia|]. split; [lia|].
  apply locked_in_past_panics; lia.
Defined.

Lemma concurrency_limited_admission_witness :
  Spool.due (item 1 50) <= 100 /\
  scan_on_hold s_limited !! 1%nat = Some (ConcurrencyLimited [global_limiter] None) /\
  g_process_event 100 s_limited (item 1 50) =
    enforce_limits g_is_outbound_allowed 100 (drop_hold 1%nat s_limited) (item 1 50).
Proof.
  split; [cbn; lia|]. split; [reflexivity|].
  destruct (concurrency_limited_admission g_concurrent g_is_outbound_allowed
    100 s_limited (item 1 50) [global_limiter] None ltac:(cbn; lia) eq_refl) as [_ Hgo].
  refine (proj1 (Hgo _)). left. exists global_limiter.
  split; [apply list_elem_of_singleton; reflexivity | vm_compute; reflexivity].
Defined.

Lemma locked_hold_expiry_witness :
  Spool.due (item 1 50) <= 100 /\
  scan_on_hold s_locked !! 1%nat = Some (Locked 150) /\
  g_process_event 100 s_locked (item 1 50) =
    (Build_Scan (scan_on_hold s_locked) (Z.min 300 (150 - 100)) 0, Held (item 1 50)).
Proof.
  split; [cbn; lia|]. split; [reflexivity|].
  exact (proj1 (locked_hold_expiry g_concurrent g_is_outbound_allowed 100 150 s_locked
    (item 1 50) ltac:(cbn; lia) eq_refl) ltac:(lia)).
Defined.

Lemma cleanup_retention_witness :
  exists q' adm' tr,
    g_rescan 300 q_mixed_holds 0 (mk_env Elapsed 700 [item 2 900; item 4 60]) =
      Some (q', adm', tr) /\
    next_cleanup q' = 700 + CLEANUP_INTERVAL /\
    on_hold q' !! 2%nat = Some (ConcurrencyLimited [global_limiter] None) /\
    on_hold q' !! 3%nat = None /\ on_hold q' !! 5%nat = None /\
    on_hold q' !! 1%nat = Some InFlight.
Proof.
  do 3 eexists. split; [vm_compute; reflexivity|].
  pose proof (cleanup_retention g_concurrent g_is_outbound_allowed 300 q_mixed_holds 0
    (mk_env Elapsed 700 [item 2 900; item 4 60]) _ _ _ ltac:(vm_compute; reflexivity))
    as [Hfire _].
  destruct (Hfire ltac:(cbn; lia)) as [Hnc _].
  split; [exact Hnc|]. vm_compute. repeat split; reflexivity.
Defined.

Lemma rescan_shuffle_and_outcomes_witness :
  exists q' adm' tr,
    g_rescan 300 q0 0 (mk_env Elapsed 100 six_due) = Some (q', adm', tr) /\
    outcome_event <$> tr = rescan_order (mk_env Elapsed 100 six_due) /\
    rescan_order (mk_env Elapsed 100 six_due) = shuffle (fun i => i) six_due /\
    shuffle (fun i => i) six_due ≡ₚ six_due /\
    tr !! 2%nat = Some (Limited (item 3 30)) /\
    outcome_effect 100
      (process_events g_concurrent g_is_outbound_allowed 100 (Build_Scan ∅ 300 0)
         [item 1 10; item 2 20]).1
      (g_process_event 100 (process_events g_concurrent g_is_outbound_allowed 100
         (Build_Scan ∅ 300 0) [item 1 10; item 2 20]).1 (item 3 30)).1
      (Limited (item 3 30)).
Proof.
  do 3 eexists. split; [vm_compute; reflexivity|].
  destruct (rescan_shuffle_and_outcomes g_concurrent g_is_outbound_allowed 300 q0 0
    (mk_env Elapsed 100 six_due) _ _ _ ltac:(vm_compute; reflexivity))
    as (Hord & Hperm & Htr & Hpos).
  destruct (Hpos [item 1 10; item 2 20] (item 3 30) [item 4 40; item 5 50; item 6 60]
    ltac:(vm_compute; reflexivity)) as (Hmid & _ & Heff & _).
  split; [exact Htr|]. split; [exact Hord|]. split; [exact Hperm|].
  split; [vm_compute in Hmid; exact Hmid|].
  vm_compute in Heff. vm_compute. exact Heff.
Defined.

Lemma single_pending_wake_up_witness :
  exists q' adm' tr,
    g_rescan 300 q0 0 (mk_env Elapsed 100 [item 1 250]) = Some (q', adm', tr) /\
    tr = [NotDue (item 1 250)] /\ next_wake_up q' = 100 + Z.min (250 - 100) 300.
Proof.
  do 3 eexists. split; [vm_compute; reflexivity|].
  destruct (single_pending_wake_up g_concurrent g_is_outbound_allowed 300 q0 0
    (mk_env Elapsed 100 [item 1 250]) (item 1 250) _ _ _ eq_refl ltac:(cbn; lia) eq_refl
    ltac:(vm_compute; reflexivity)) as (Htr & _ & Hw).
  split; assumption.
Defined.

Lemma in_flight_until_cleared_witness :
  on_hold q_in_flight !! 1%nat = Some InFlight /\
  match g_loop_iter 300 q_in_flight 0 (mk_env Elapsed 100 [item 1 50]) with
  | Continue q' _ tr =>
      on_hold q' !! 1%nat = Some InFlight /\
      forall e, Dispatched e ∈ tr -> Spool.queue_id e <> 1%nat
  | _ => True
  end.
Proof.
  split; [reflexivity|].
  apply (proj1 (in_flight_until_cleared g_concurrent g_is_outbound_allowed 300 q_in_flight 0
    (mk_env Elapsed 100 [item 1 50]) 1%nat eq_refl)); cbn; intros; discriminate.
Defined.

(** C1: item 1 is dispatched, a [Refresh(Some(1))] clears its [InFlight]
    hold, and it is dispatched a second time with no [WorkerDone(1)] in
    between. *)
Lemma single_flight_counterexample :
  exists q1 adm1 q2 adm2,
    g_loop_iter 300 q0 0 (mk_env Elapsed 100 [item 1 50]) =
      Continue q1 adm1 [Dispatched (item 1 50)] /\
    on_hold q1 !! 1%nat = Some InFlight /\
    g_loop_iter 300 q1 adm1
      (mk_env (Received (Some (Ipc.Refresh (Some 1%nat)))) 110 [item 1 50]) =
      Continue q2 adm2 [Dispatched (item 1 50)].
Proof.
  do 4 eexists. split; [vm_compute; reflexivity|].
  split; vm_compute; reflexivity.
Defined.

(** C2: the queue is paused with item 1 due; [Paused(false)] clears the
    flag but the iteration does not rescan: nothing is dispatched and
    [next_wake_up] stays a day ahead. *)
Lemma unpause_counterexample :
  g_loop_iter 300 q_paused 0
    (mk_env (Received (Some (Ipc.Paused false))) 200 [item 1 50]) =
    Continue (set_paused false q_paused) 0 [] /\
  is_paused (set_paused false q_paused) = false /\
  next_wake_up (set_paused false q_paused) = 86500.
Proof. split; [vm_compute; reflexivity|]. split; reflexivity. Defined.

(** C9: with a ceiling of 300 s, an item due at 1000 seen by a
    rescan at 100 (Instant and epoch clocks aligned) sets the next wake-up
    to 400, before its deadline. *)
Lemma wake_precision_counterexample :
  exists q' adm' tr,
    g_loop_iter queue_refresh_upstream q0 0 (mk_env Elapsed 100 [item 1 1000]) =
      Continue q' adm' tr /\
    tr = [NotDue (item 1 1000)] /\
    next_wake_up q' = 400 /\ next_wake_up q' < Spool.due (item 1 1000).
Proof.
  do 3 eexists. split; [vm_compute; reflexivity|].
  split; [reflexivity|]. split; [reflexivity|]. cbn. lia.
Defined.

(** * The other deadline queries of [Message] *)

Lemma omin_assoc (a b c : option Z) : omin (omin a b) c = omin a (omin b c).
Proof. destruct a, b, c; cbn; f_equal; lia. Qed.

Lemma omin_none_r (a : option Z) : omin a None = a.
Proof. destruct a; reflexivity. Qed.

Lemma list_min_cons (x : Z) (l : list Z) : list_min (x :: l) = omin (Some x) (list_min l).
Proof. cbn. destruct (list_min l); reflexivity. Qed.

Lemma list_min_app (l1 l2 : list Z) : list_min (l1 ++ l2) = omin (list_min l1) (list_min l2).
Proof.
  induction l1 as [|x l1 IH]; [reflexivity|].
  rewrite <- app_comm_cons, !list_min_cons, IH, omin_assoc. reflexivity.
Qed.

Lemma list_min_filter_cons (p : Z -> bool) (x : Z) (l : list Z) :
  list_min (List.filter p (x :: l)) = omin (if p x then Some x else None) (list_min (List.filter p l)).
Proof. cbn. destruct (p x); [apply list_min_cons | reflexivity]. Qed.

Lemma list_min_lower (l : list Z) (v : Z) :
  list_min l = Some v -> forall x, In x l -> v <= x.
Proof.
  revert v. induction l as [|y l IH]; intros v Hv x Hx; [destruct Hx|].
  cbn in Hv. injection Hv as <-.
  destruct Hx as [->|Hx].
  - destruct (list_min l); lia.
  - destruct (list_min l) as [m|] eqn:Hm; [|destruct l; [destruct Hx | discriminate]].
    specialize (IH m eq_refl x Hx). lia.
Qed.

Lemma filter_all_above (instant : Z) (l : list Z) :
  (forall x, In x l -> instant < x) -> List.filter (fun x => instant <? x) l = l.
Proof.
  induction l as [|x l IH]; intros H; [reflexivity|]. cbn.
  rewrite (proj2 (Z.ltb_lt _ _) (H x (or_introl eq_refl))).
  f_equal. apply IH. intros y Hy. apply H. right. exact Hy.
Qed.

Lemma first_or_min_fold (f : Domain -> Z) (ds : list Domain) (p : nat) (cur : Z) :
  (fold_left (first_or_min_step f) ds (S p, cur)).2 =
  match list_min (map f ds) with None => cur | Some v => Z.min cur v end.
Proof.
  revert p cur. induction ds as [|d ds IH]; intros p cur; [reflexivity|].
  cbn [fold_left map]. unfold first_or_min_step at 2. cbn [Nat.eqb orb].
  rewrite IH, list_min_cons, ltb_select_min.
  destruct (list_min (map f ds)); cbn; lia.
Qed.

Lemma first_or_min_spec (f : Domain -> Z) (now : Z) (m : Message) :
  first_or_min f now m =
  match list_min (map f (pending_domains m)) with None => now | Some v => v end.
Proof.
  unfold first_or_min. destruct (pending_domains m) as [|d ds]; [reflexivity|].
  cbn [fold_left map]. unfold first_or_min_step at 2. cbn [Nat.eqb orb].
  rewrite first_or_min_fold, list_min_cons.
  destruct (list_min (map f ds)); reflexivity.
Qed.

(** [next_delivery_event], [next_dsn] and [expires] each return the
    minimum of their field ([retry], [notify], [expires]) over the domains
    in [Scheduled] or [TemporaryFailure], and the [now()] they start from
    when the message has no such domain. *)
Theorem single_deadline_queries (now : Z) (m : Message) :
  next_delivery_event now m =
    match list_min (map (fun d => sched_due (retry d)) (pending_domains m)) with
    | Some v => v | None => now end /\
  next_dsn now m =
    match list_min (map (fun d => sched_due (notify d)) (pending_domains m)) with
    | Some v => v | None => now end /\
  message_expires now m =
    match list_min (map expires (pending_domains m)) with
    | Some v => v | None => now end.
Proof.
  unfold next_delivery_event, next_dsn, message_expires. rewrite !first_or_min_spec.
  split; [|split]; reflexivity.
Qed.

Lemma take_after_omin (instant v : Z) (next : option Z) :
  take_after instant v next = omin next (if instant <? v then Some v else None).
Proof.
  unfold take_after. destruct (Z.ltb_spec instant v); cbn; [|apply eq_sym, omin_none_r].
  destruct next as [ne|]; [|reflexivity].
  destruct (Z.ltb_spec v ne); cbn; f_equal; lia.
Qed.

Lemma next_event_after_fold (instant : Z) (ds : list Domain) (next : option Z) :
  fold_left (next_event_after_step instant) ds next =
  omin next (list_min (List.filter (fun x => instant <? x)
    (flat_map (fun d => [sched_due (retry d); sched_due (notify d); expires d])
       (List.filter (fun d => is_pending (status d)) ds)))).
Proof.
  revert next. induction ds as [|d ds IH]; intros next; [symmetry; apply omin_none_r|].
  cbn [fold_left List.filter]. unfold next_event_after_step at 2.
  destruct (is_pending (status d)); rewrite IH; [|reflexivity].
  cbn [flat_map app]. rewrite !list_min_filter_cons, !take_after_omin, !omin_assoc.
  reflexivity.
Qed.

(** [next_event_after(instant)] returns the least [retry], [notify] or
    [expires] deadline strictly after [instant] among the domains in
    [Scheduled] or [TemporaryFailure], and [None] when there is none. *)
Theorem next_event_after_spec (instant : Z) (m : Message) :
  next_event_after instant m =
    list_min (List.filter (fun x => instant <? x) (pending_deadlines m)).
Proof. unfold next_event_after. rewrite next_event_after_fold. reflexivity. Qed.

Lemma min_deadline_deadlines (ds : list Domain) :
  min_deadline ds =
  list_min (flat_map (fun d => [sched_due (retry d); sched_due (notify d); expires d])
              (List.filter (fun d => is_pending (status d)) ds)).
Proof.
  induction ds as [|d ds IH]; [reflexivity|].
  cbn [min_deadline List.filter]. destruct (is_pending (status d)); [|exact IH].
  cbn [flat_map app]. rewrite !list_min_cons, <- IH.
  unfold domain_deadline. destruct (min_deadline ds); cbn; f_equal; lia.
Qed.

Lemma min_deadline_split (ds : list Domain) :
  min_deadline ds =
  omin (omin (list_min (map (fun d => sched_due (retry d)) (List.filter (fun d => is_pending (status d)) ds)))
             (list_min (map (fun d => sched_due (notify d)) (List.filter (fun d => is_pending (status d)) ds))))
       (list_min (map expires (List.filter (fun d => is_pending (status d)) ds))).
Proof.
  induction ds as [|d ds IH]; [reflexivity|].
  cbn [min_deadline List.filter]. destruct (is_pending (status d)); [|exact IH].
  cbn [map]. rewrite !list_min_cons, IH. unfold domain_deadline.
  destruct (list_min (map (fun d => sched_due (retry d)) _)),
           (list_min (map (fun d => sched_due (notify d)) _)),
           (list_min (map expires _)); cbn; f_equal; lia.
Qed.

(** [next_event] composes the three single-field queries: with a domain in
    [Scheduled] or [TemporaryFailure] it is the least of
    [next_delivery_event], [next_dsn] and [expires]; without one it is
    [None] and the three queries all return [now()]. *)
Theorem next_event_of_single_queries (now : Z) (m : Message) :
  (pending_domains m <> [] ->
     next_event now m =
       Some (Z.min (Z.min (next_delivery_event now m) (next_dsn now m)) (message_expires now m))) /\
  (pending_domains m = [] ->
     next_event now m = None /\ next_delivery_event now m = now /\
     next_dsn now m = now /\ message_expires now m = now).
Proof.
  unfold next_event. rewrite next_event_fold_none, min_deadline_split.
  unfold next_delivery_event, next_dsn, message_expires. rewrite !first_or_min_spec.
  unfold pending_domains.
  destruct (List.filter (fun d => is_pending (status d)) (domains m)) as [|d ds].
  - split; [intros H; congruence|]. intros _. repeat split.
  - split; [|intros H; discriminate]. intros _. cbn [map]. rewrite !list_min_cons.
    destruct (list_min (map (fun d => sched_due (retry d)) ds)),
             (list_min (map (fun d => sched_due (notify d)) ds)),
             (list_min (map expires ds)); cbn; f_equal; lia.
Qed.

(** Asked for the deadlines after any instant before [next_event()],
    [next_event_after] returns [next_event()] itself. *)
Theorem next_event_after_before_next (now instant v : Z) (m : Message) :
  next_event now m = Some v -> instant < v -> next_event_after instant m = Some v.
Proof.
  intros Hv Hlt.
  unfold next_event in Hv. rewrite next_event_fold_none, min_deadline_deadlines in Hv.
  rewrite next_event_after_spec. unfold pending_deadlines, pending_domains.
  destruct (list_min _) as [w|] eqn:Hw; [|discriminate]. injection Hv as <-.
  rewrite filter_all_above; [exact Hw|].
  intros x Hx. pose proof (list_min_lower _ _ Hw x Hx). lia.
Qed.

(** * More properties of the rescan and of one loop iteration *)

Lemma dispatched_ids_In (tr : list Outcome) (id : QueueId) :
  In id (dispatched_ids tr) <-> exists e, In (Dispatched e) tr /\ Spool.queue_id e = id.
Proof.
  unfold dispatched_ids. rewrite in_flat_map. split.
  - intros [[e|e|e|e] [Ho Hid]]; cbn in Hid; try contradiction.
    destruct Hid as [<-|[]]. exists e. split; [exact Ho | reflexivity].
  - intros [e [Ho <-]]. exists (Dispatched e). split; [exact Ho | left; reflexivity].
Qed.

Section Rescan_extra.
Context {Adm : Type}.
Variable concurrent : Adm -> ConcurrencyLimiter -> Z.
Variable is_outbound_allowed : Adm -> Allowed * Adm.
Variable QUEUE_REFRESH : Z.

Local Abbreviation process_event := (process_event concurrent is_outbound_allowed).
Local Abbreviation process_events := (process_events concurrent is_outbound_allowed).
Local Abbreviation enforce_limits := (enforce_limits is_outbound_allowed).
Local Abbreviation rescan := (rescan concurrent is_outbound_allowed QUEUE_REFRESH).
Local Abbreviation rescan_scan := (rescan_scan concurrent is_outbound_allowed QUEUE_REFRESH).
Local Abbreviation loop_iter := (loop_iter concurrent is_outbound_allowed QUEUE_REFRESH).

Lemma process_event_dispatched (now : Z) (s : Scan Adm) (e e' : Spool.QueueEvent) :
  (process_event now s e).2 = Dispatched e' ->
  scan_on_hold (process_event now s e).1 !! Spool.queue_id e' = Some InFlight.
Proof.
  intros Ho. pose proof (proj2 (process_event_fits concurrent is_outbound_allowed now s e)) as Hf.
  rewrite Ho in Hf. exact (proj2 Hf).
Qed.

Lemma process_events_dispatched (now : Z) (s : Scan Adm) (es : list Spool.QueueEvent)
    (e : Spool.QueueEvent) :
  Dispatched e ∈ (process_events now s es).2 ->
  scan_on_hold (process_events now s es).1 !! Spool.queue_id e = Some InFlight.
Proof.
  revert s. induction es as [|e0 es IH]; intros s Hin; [cbn in Hin; set_solver|].
  cbn [process_events] in *.
  destruct (process_event now s e0) as [s1 o] eqn:He.
  pose proof (IH s1) as IH1.
  pose proof (process_events_keep_in_flight concurrent is_outbound_allowed now s1 es
                (Spool.queue_id e)) as Hkeep.
  destruct (process_events now s1 es) as [s2 os]. cbn in *.
  apply elem_of_cons in Hin as [Ho|Ho].
  - apply Hkeep. pose proof (process_event_dispatched now s e0 e) as Hd.
    rewrite He in Hd. apply Hd. symmetry. exact Ho.
  - apply IH1. exact Ho.
Qed.

Lemma process_events_nodup (now : Z) (s : Scan Adm) (es : list Spool.QueueEvent) :
  NoDup (dispatched_ids (process_events now s es).2).
Proof.
  revert s. induction es as [|e0 es IH]; intros s; [constructor|].
  cbn [process_events].
  destruct (process_event now s e0) as [s1 o] eqn:He.
  pose proof (IH s1) as IH1.
  destruct o as [e|e|e|e];
    [| destruct (process_events now s1 es); exact IH1 ..].
  pose proof (process_event_dispatched now s e0 e) as Hd. rewrite He in Hd.
  specialize (Hd eq_refl).
  pose proof (proj2 (process_events_keep_in_flight concurrent is_outbound_allowed now s1 es
                (Spool.queue_id e) Hd)) as Hnot.
  destruct (process_events now s1 es) as [s2 os]. cbn in *.
  constructor; [|exact IH1].
  rewrite list_elem_of_In, dispatched_ids_In. intros [e' [Hin Hid]].
  apply (Hnot e'); [apply list_elem_of_In; exact Hin | exact Hid].
Qed.

Lemma process_events_frame (now : Z) (s : Scan Adm) (es : list Spool.QueueEvent) (id : QueueId) :
  id ∉ Spool.queue_id <$> es ->
  scan_on_hold (process_events now s es).1 !! id = scan_on_hold s !! id.
Proof.
  revert s. induction es as [|e es IH]; intros s Hid; [reflexivity|].
  cbn [fmap list_fmap] in Hid. rewrite elem_of_cons in Hid.
  cbn [process_events].
  pose proof (process_event_other concurrent is_outbound_allowed now s e id) as Ho.
  destruct (process_event now s e) as [s1 o] eqn:He.
  pose proof (IH s1) as IH1.
  destruct (process_events now s1 es) as [s2 os]. cbn in *.
  rewrite IH1 by tauto. apply Ho. intros Heq. apply Hid. left. symmetry. exact Heq.
Qed.

Lemma process_event_due_ok (now : Z) (s : Scan Adm) (e : Spool.QueueEvent) :
  Spool.due e <= now ->
  exists h, scan_on_hold (process_event now s e).1 !! Spool.queue_id e = Some h /\
    match h with Locked until => now < until | _ => True end.
Proof.
  intros Hdue.
  pose proof (process_event_effect concurrent is_outbound_allowed now s e) as Heff.
  pose proof (proj1 (process_event_fits concurrent is_outbound_allowed now s e)) as Hev.
  destruct (process_event now s e) as [s' o]. cbn in Heff, Hev |- *.
  destruct o as [e'|e'|e'|e']; cbn in Hev; subst e'; cbn in Heff.
  - destruct Heff as (_ & _ & -> & _). exists InFlight. rewrite lookup_insert_eq. auto.
  - destruct Heff as (_ & _ & [l ->] & _). exists (ConcurrencyLimited [l] None).
    rewrite lookup_insert_eq. auto.
  - destruct Heff as (_ & -> & _ & h & Hh & Hw). exists h. split; [exact Hh|].
    destruct h; [exact (proj1 Hw) | exact I | exact I].
  - destruct Heff as [Hlt _]. lia.
Qed.

Lemma process_event_keeps_ok (now : Z) (s : Scan Adm) (e : Spool.QueueEvent) (id : QueueId) :
  (exists h, scan_on_hold s !! id = Some h /\ match h with Locked until => now < until | _ => True end) ->
  exists h, scan_on_hold (process_event now s e).1 !! id = Some h /\ match h with Locked until => now < until | _ => True end.
Proof.
  intros Hs. destruct (decide (Spool.queue_id e = id)) as [<-|Hne].
  - destruct (Z.leb_spec (Spool.due e) now) as [Hdue|Hdue].
    + apply process_event_due_ok. exact Hdue.
    + unfold process_event; cbv zeta. rewrite (proj2 (Z.leb_gt _ _) Hdue). exact Hs.
  - rewrite process_event_other by exact Hne. exact Hs.
Qed.

Lemma process_events_keeps_ok (now : Z) (s : Scan Adm) (es : list Spool.QueueEvent)
    (id : QueueId) :
  (exists h, scan_on_hold s !! id = Some h /\ match h with Locked until => now < until | _ => True end) ->
  exists h, scan_on_hold (process_events now s es).1 !! id = Some h /\ match h with Locked until => now < until | _ => True end.
Proof.
  revert s. induction es as [|e es IH]; intros s Hs; [exact Hs|].
  cbn [process_events].
  pose proof (process_event_keeps_ok now s e id Hs) as H1.
  destruct (process_event now s e) as [s1 o]. cbn in H1.
  pose proof (IH s1 H1) as H2.
  destruct (process_events now s1 es). exact H2.
Qed.

Lemma process_events_due_ok (now : Z) (s : Scan Adm) (es : list Spool.QueueEvent)
    (e : Spool.QueueEvent) :
  e ∈ es -> Spool.due e <= now ->
  exists h, scan_on_hold (process_events now s es).1 !! Spool.queue_id e = Some h /\ match h with Locked until => now < until | _ => True end.
Proof.
  revert s. induction es as [|e0 es IH]; intros s Hin Hdue; [set_solver|].
  cbn [process_events].
  apply elem_of_cons in Hin as [Heq|Hin].
  - subst e0. pose proof (process_event_due_ok now s e Hdue) as H1.
    destruct (process_event now s e) as [s1 o]. cbn in H1.
    pose proof (process_events_keeps_ok now s1 es _ H1) as H2.
    destruct (process_events now s1 es). exact H2.
  - destruct (process_event now s e0) as [s1 o].
    pose proof (IH s1 Hin Hdue) as H2.
    destruct (process_events now s1 es). exact H2.
Qed.

Lemma process_event_wake_up (now : Z) (s : Scan Adm) (e : Spool.QueueEvent) :
  scan_next_wake_up (process_event now s e).1 <= scan_next_wake_up s /\
  (0 < scan_next_wake_up s -> 0 < scan_next_wake_up (process_event now s e).1) /\
  ((process_event now s e).2 = NotDue e ->
     scan_next_wake_up (process_event now s e).1 <= Spool.due e - now).
Proof.
  assert (Hadm : forall s0, scan_next_wake_up (enforce_limits now s0 e).1 = scan_next_wake_up s0).
  { intros s0. destruct (enforce_limits_outcome is_outbound_allowed now s0 e)
      as [[adm' [-> _]] | [l [adm' [-> _]]]]; reflexivity. }
  assert (Hnd : forall s0, (enforce_limits now s0 e).2 <> NotDue e).
  { intros s0. destruct (enforce_limits_outcome is_outbound_allowed now s0 e)
      as [[adm' [_ ->]] | [l [adm' [_ ->]]]]; discriminate. }
  unfold process_event; cbv zeta.
  destruct (Z.leb_spec (Spool.due e) now) as [Hdue|Hdue].
  - destruct (scan_on_hold s !! Spool.queue_id e) as [[until|limiters next_due|]|].
    + destruct (Z.ltb_spec now until) as [Hlt|Hge].
      * cbn. rewrite ltb_select_min. repeat split; try lia. discriminate.
      * rewrite Hadm. cbn. repeat split; try lia. intros H. exfalso. exact (Hnd _ H).
    + destruct (negb _).
      * cbn. repeat split; try lia. discriminate.
      * rewrite Hadm. cbn. repeat split; try lia. intros H. exfalso. exact (Hnd _ H).
    + cbn. repeat split; try lia. discriminate.
    + rewrite Hadm. repeat split; try lia. intros H. exfalso. exact (Hnd _ H).
  - cbn. rewrite ltb_select_min. repeat split; lia.
Qed.

Lemma process_events_wake_up (now : Z) (s : Scan Adm) (es : list Spool.QueueEvent) :
  scan_next_wake_up (process_events now s es).1 <= scan_next_wake_up s /\
  (0 < scan_next_wake_up s -> 0 < scan_next_wake_up (process_events now s es).1) /\
  (forall e, NotDue e ∈ (process_events now s es).2 ->
     scan_next_wake_up (process_events now s es).1 <= Spool.due e - now).
Proof.
  revert s. induction es as [|e0 es IH]; intros s.
  - cbn. repeat split; try lia. intros e He. set_solver.
  - cbn [process_events].
    pose proof (process_event_wake_up now s e0) as (H1 & H2 & H3).
    pose proof (proj1 (process_event_fits concurrent is_outbound_allowed now s e0)) as Hev.
    destruct (process_event now s e0) as [s1 o]. cbn in H1, H2, H3, Hev.
    pose proof (IH s1) as (I1 & I2 & I3).
    destruct (process_events now s1 es) as [s2 os]. cbn in *.
    repeat split; try lia.
    intros e He. apply elem_of_cons in He as [He|He].
    + subst o. cbn in Hev. subst e0. specialize (H3 eq_refl). lia.
    + apply I3. exact He.
Qed.

(** Every id a rescan dispatches is [InFlight] in the queue the rescan
    leaves, whether or not the periodic cleanup ran. *)
Theorem rescan_dispatched_in_flight (q : Queue) (adm : Adm) (env : Env) (q' : Queue)
    (adm' : Adm) (tr : list Outcome) (e : Spool.QueueEvent) :
  rescan q adm env = Some (q', adm', tr) ->
  Dispatched e ∈ tr ->
  on_hold q' !! Spool.queue_id e = Some InFlight.
Proof.
  intros Hr Hin.
  destruct (rescan_spec concurrent is_outbound_allowed QUEUE_REFRESH q adm env q' adm' tr Hr)
    as (Htr & _ & _ & _ & _ & Hfire & Hwait).
  cbv zeta in *. unfold rescan_scan in *. rewrite Htr in Hin.
  pose proof (process_events_dispatched _ _ _ e Hin) as Hd.
  destruct (Z.leb_spec (next_cleanup q) (env_instant_174 env)) as [Hc|Hc].
  - rewrite (proj2 (Hfire Hc)), cleanup_lookup. split; [exact Hd | reflexivity].
  - rewrite (proj2 (Hwait Hc)). exact Hd.
Qed.

(** A rescan dispatches each queue id at most once, even when the batch
    lists an id several times. *)
Theorem rescan_dispatches_once (q : Queue) (adm : Adm) (env : Env) (q' : Queue)
    (adm' : Adm) (tr : list Outcome) :
  rescan q adm env = Some (q', adm', tr) -> NoDup (dispatched_ids tr).
Proof.
  intros Hr.
  destruct (rescan_spec concurrent is_outbound_allowed QUEUE_REFRESH q adm env q' adm' tr Hr)
    as (Htr & _).
  cbv zeta in Htr. unfold rescan_scan in Htr. rewrite Htr. apply process_events_nodup.
Qed.

(** Before the cleanup timer runs out, a rescan leaves the hold of every
    id that is not in the batch exactly as it was. *)
Theorem rescan_frame (q : Queue) (adm : Adm) (env : Env) (q' : Queue) (adm' : Adm)
    (tr : list Outcome) (id : QueueId) :
  rescan q adm env = Some (q', adm', tr) ->
  env_instant_174 env < next_cleanup q ->
  id ∉ Spool.queue_id <$> env_batch env ->
  on_hold q' !! id = on_hold q !! id.
Proof.
  intros Hr Hc Hid.
  destruct (rescan_spec concurrent is_outbound_allowed QUEUE_REFRESH q adm env q' adm' tr Hr)
    as (_ & _ & _ & _ & _ & _ & Hwait).
  cbv zeta in Hwait. rewrite (proj2 (Hwait Hc)). unfold rescan_scan.
  rewrite process_events_frame; [reflexivity|].
  rewrite (rescan_order_perm env). exact Hid.
Qed.

(** Before the cleanup timer runs out, every batch item that is due has a
    hold after the rescan, and that hold is [InFlight], [ConcurrencyLimited]
    or a [Locked{until}] with [until] still after [now]: no due item is
    left without a hold or with an expired lock. *)
Theorem rescan_due_item_held (q : Queue) (adm : Adm) (env : Env) (q' : Queue) (adm' : Adm)
    (tr : list Outcome) (e : Spool.QueueEvent) :
  rescan q adm env = Some (q', adm', tr) ->
  env_instant_174 env < next_cleanup q ->
  e ∈ env_batch env ->
  Spool.due e <= env_epoch_104 env ->
  exists h, on_hold q' !! Spool.queue_id e = Some h /\
    match h with
    | InFlight => True
    | ConcurrencyLimited _ _ => True
    | Locked until => env_epoch_104 env < until
    end.
Proof.
  intros Hr Hc Hin Hdue.
  destruct (rescan_spec concurrent is_outbound_allowed QUEUE_REFRESH q adm env q' adm' tr Hr)
    as (_ & _ & _ & _ & _ & _ & Hwait).
  cbv zeta in Hwait. rewrite (proj2 (Hwait Hc)). unfold rescan_scan.
  destruct (process_events_due_ok (env_epoch_104 env) (Build_Scan (on_hold q) QUEUE_REFRESH adm)
    (rescan_order env) e) as [h [Hh Hok]]; [rewrite (rescan_order_perm env); exact Hin | exact Hdue |].
  exists h. split; [exact Hh|]. destruct h; exact Hok.
Qed.

(** With a positive [QUEUE_REFRESH], a rescan sets [next_wake_up]
    strictly after the end-of-rescan [Instant] and at most
    [QUEUE_REFRESH] seconds after it, and no later than the due time of
    any batch item that was not due yet. *)
Theorem rescan_wake_up_bounds (q : Queue) (adm : Adm) (env : Env) (q' : Queue) (adm' : Adm)
    (tr : list Outcome) :
  0 < QUEUE_REFRESH ->
  rescan q adm env = Some (q', adm', tr) ->
  env_instant_174 env < next_wake_up q' <= env_instant_174 env + QUEUE_REFRESH /\
  (forall e, NotDue e ∈ tr ->
     next_wake_up q' <= env_instant_174 env + (Spool.due e - env_epoch_104 env)).
Proof.
  intros Hqr Hr.
  destruct (rescan_spec concurrent is_outbound_allowed QUEUE_REFRESH q adm env q' adm' tr Hr)
    as (Htr & _ & Hw & _).
  cbv zeta in *. unfold rescan_scan in *.
  pose proof (process_events_wake_up (env_epoch_104 env)
    (Build_Scan (on_hold q) QUEUE_REFRESH adm) (rescan_order env)) as (W1 & W2 & W3).
  rewrite <- Htr in W3. cbn in W1, W2.
  unfold instant_checked_add in Hw.
  destruct (_ && _); [injection Hw as Hw | discriminate].
  split; [specialize (W2 Hqr); lia|].
  intros e He. specialize (W3 e He). lia.
Qed.

(** A rescan of an empty batch dispatches nothing, leaves the admission
    state alone and sets [next_wake_up] [QUEUE_REFRESH] seconds ahead;
    its holds are untouched unless the cleanup runs, and then no
    [ConcurrencyLimited] hold survives (no id is active). *)
Theorem rescan_empty_batch (q : Queue) (adm : Adm) (env : Env) (q' : Queue) (adm' : Adm)
    (tr : list Outcome) :
  env_batch env = [] ->
  rescan q adm env = Some (q', adm', tr) ->
  tr = [] /\ adm' = adm /\ next_wake_up q' = env_instant_174 env + QUEUE_REFRESH /\
  (env_instant_174 env < next_cleanup q -> on_hold q' = on_hold q) /\
  (next_cleanup q <= env_instant_174 env ->
     forall id h, on_hold q' !! id = Some h <->
       on_hold q !! id = Some h /\
       match h with
       | InFlight => True
       | Locked until => env_epoch_183 env < until
       | ConcurrencyLimited _ _ => False
       end).
Proof.
  intros Hb Hr.
  destruct (rescan_spec concurrent is_outbound_allowed QUEUE_REFRESH q adm env q' adm' tr Hr)
    as (Htr & Hadm & Hw & _ & _ & Hfire & Hwait).
  cbv zeta in *. unfold rescan_scan, rescan_order in *. rewrite Hb in *. cbn in *.
  split; [exact Htr|]. split; [exact Hadm|]. split.
  { unfold instant_checked_add in Hw.
    destruct (_ && _); [injection Hw as <-; reflexivity | discriminate]. }
  split; [intros Hc; exact (proj2 (Hwait Hc))|].
  intros Hc id h. rewrite (proj2 (Hfire Hc)), cleanup_lookup, retain_hold_spec.
  destruct h as [until| |]; try reflexivity. set_solver.
Qed.

Lemma rescan_none (q : Queue) (adm : Adm) (env : Env) :
  rescan q adm env = None ->
  exists w, (w = CLEANUP_INTERVAL \/ w <= QUEUE_REFRESH) /\
    instant_checked_add (env_instant_174 env) w = None.
Proof.
  unfold rescan; cbv zeta.
  pose proof (process_events_wake_up (env_epoch_104 env)
    (Build_Scan (on_hold q) QUEUE_REFRESH adm) (rescan_order env)) as (W1 & _).
  destruct (process_events (env_epoch_104 env) (Build_Scan (on_hold q) QUEUE_REFRESH adm)
              (rescan_order env)) as [s trace].
  cbn in W1.
  destruct (next_cleanup q <=? env_instant_174 env).
  - destruct (instant_checked_add (env_instant_174 env) CLEANUP_INTERVAL) eqn:Hnc.
    + destruct (instant_checked_add (env_instant_174 env) (scan_next_wake_up s)) eqn:Hw;
        [discriminate|].
      intros _. exists (scan_next_wake_up s). auto.
    + intros _. exists CLEANUP_INTERVAL. auto.
  - destruct (instant_checked_add (env_instant_174 env) (scan_next_wake_up s)) eqn:Hw;
      [discriminate|].
    intros _. exists (scan_next_wake_up s). auto.
Qed.

(** One loop iteration ends the loop with [break] exactly when the
    channel is closed or delivers [Stop].  It panics only when an
    [Instant + Duration] addition overflows: the [OnHold{Locked{until}}]
    arm's deadline, the end-of-rescan addition of the cleanup interval or
    of the wake-up delay (at most [QUEUE_REFRESH]), or the paused branch's
    24-hour horizon.  In every other case it continues. *)
Theorem loop_iter_break_iff (q : Queue) (adm : Adm) (env : Env) :
  (loop_iter q adm env = Break <->
     env_wait env = Received None \/ env_wait env = Received (Some Ipc.Stop)) /\
  (loop_iter q adm env = Panic ->
     (exists id until,
        env_wait env = Received (Some (Ipc.OnHoldEvent id (Locked until))) /\
        instant_checked_add (env_instant_78 env) (wrapping_sub_u64 until (env_epoch_78 env)) = None) \/
     (exists w, (w = CLEANUP_INTERVAL \/ w <= QUEUE_REFRESH) /\
        instant_checked_add (env_instant_174 env) w = None) \/
     instant_checked_add (env_instant_198 env) 86400 = None).
Proof.
  split.
  - unfold loop_iter. split.
    + destruct (handle_event q (env_wait env) (env_instant_78 env) (env_epoch_78 env))
        as [| |q1 r] eqn:Hh.
      * destruct (env_wait env) as [|[[o|id|id st|p|]|]]; cbn in Hh;
          try (destruct o); try discriminate; auto.
        destruct st as [until| |]; [|discriminate ..].
        destruct (instant_checked_add _ _); discriminate.
      * discriminate.
      * destruct (negb (is_paused q1)).
        -- destruct (_ || _); [|discriminate].
           destruct (rescan q1 adm env) as [[[? ?] ?]|]; discriminate.
        -- destruct (instant_checked_add _ _); discriminate.
    + intros [-> | ->]; reflexivity.
  - unfold loop_iter.
    destruct (handle_event q (env_wait env) (env_instant_78 env) (env_epoch_78 env))
      as [| |q1 r] eqn:Hh.
    + discriminate.
    + intros _. left.
      destruct (env_wait env) as [|[[o|id|id st|p|]|]]; cbn in Hh;
        try (destruct o); try discriminate.
      destruct st as [until| |]; [|discriminate ..].
      destruct (instant_checked_add _ _) eqn:Ha; [destruct (_ <? _); discriminate|].
      exists id, until. split; [reflexivity | exact Ha].
    + destruct (negb (is_paused q1)).
      * destruct (_ || _); [|discriminate].
        destruct (rescan q1 adm env) as [[[? ?] ?]|] eqn:Hr; [discriminate|].
        intros _. right; left. exact (rescan_none q1 adm env Hr).
      * destruct (instant_checked_add _ _) eqn:Ha; [discriminate|].
        intros _. right; right. reflexivity.
Qed.

(** When a [WorkerDone(id)] leaves no hold behind, the queue is running
    and its wake-up time has not come, the iteration does not rescan: it
    only drops the hold of [id]. *)
Theorem last_worker_done_no_rescan (q : Queue) (adm : Adm) (env : Env) (id : QueueId) :
  env_wait env = Received (Some (Ipc.WorkerDone id)) ->
  delete id (on_hold q) = ∅ ->
  is_paused q = false ->
  env_instant_103 env < next_wake_up q ->
  loop_iter q adm env = Continue (set_on_hold ∅ q) adm [].
Proof.
  intros Hw Hm Hp Hnw. unfold loop_iter. rewrite Hw. cbn.
  rewrite Hm, bool_decide_eq_true_2 by reflexivity. cbn. rewrite Hp. cbn.
  rewrite (proj2 (Z.leb_gt _ _) Hnw). reflexivity.
Qed.
End Rescan_extra.

(** * Runs of the properties above *)

Lemma next_event_after_before_next_witness :
  next_event 100 msg_three = Some 500 /\ 200 < 500 /\ next_event_after 200 msg_three = Some 500.
Proof.
  split; [vm_compute; reflexivity|]. split; [lia|].
  apply (next_event_after_before_next 100 200 500 msg_three); [vm_compute; reflexivity | lia].
Defined.

Lemma rescan_dispatched_in_flight_witness :
  exists q' adm' tr,
    g_rescan 300 q0 0 (mk_env Elapsed 700 [item 1 50; item 1 60; item 2 900]) =
      Some (q', adm', tr) /\
    Dispatched (item 1 50) ∈ tr /\ on_hold q' !! 1%nat = Some InFlight.
Proof.
  do 3 eexists. split; [vm_compute; reflexivity|].
  split; [apply elem_of_cons; left; reflexivity|].
  eapply (rescan_dispatched_in_flight g_concurrent g_is_outbound_allowed 300 q0 0
    (mk_env Elapsed 700 [item 1 50; item 1 60; item 2 900]) _ _ _ (item 1 50));
    [vm_compute; reflexivity | apply elem_of_cons; left; reflexivity].
Defined.

Lemma rescan_dispatches_once_witness :
  exists q' adm' tr,
    g_rescan 300 q0 0 (mk_env Elapsed 700 [item 1 50; item 1 60; item 2 900]) =
      Some (q', adm', tr) /\
    dispatched_ids tr = [1%nat] /\ NoDup (dispatched_ids tr).
Proof.
  do 3 eexists. split; [vm_compute; reflexivity|].
  split; [vm_compute; reflexivity|].
  eapply (rescan_dispatches_once g_concurrent g_is_outbound_allowed 300 q0 0
    (mk_env Elapsed 700 [item 1 50; item 1 60; item 2 900]) _ _ _).
  vm_compute; reflexivity.
Defined.

Lemma rescan_frame_witness :
  exists q' adm' tr,
    g_rescan 300 q_mixed_holds 0 (mk_env Elapsed 100 [item 2 50]) = Some (q', adm', tr) /\
    100 < next_cleanup q_mixed_holds /\
    (3%nat ∉ Spool.queue_id <$> [item 2 50]) /\
    on_hold q' !! 3%nat = on_hold q_mixed_holds !! 3%nat.
Proof.
  do 3 eexists. split; [vm_compute; reflexivity|].
  assert (Hid : 3%nat ∉ (Spool.queue_id <$> [item 2 50]))
    by (cbn; rewrite list_elem_of_singleton; discriminate).
  split; [cbn; lia|]. split; [exact Hid|].
  eapply (rescan_frame g_concurrent g_is_outbound_allowed 300 q_mixed_holds 0
    (mk_env Elapsed 100 [item 2 50]) _ _ _ 3%nat); [vm_compute; reflexivity | cbn; lia | exact Hid].
Defined.

Lemma rescan_due_item_held_witness :
  exists q' adm' tr,
    g_rescan 300 q_mixed_holds 0 (mk_env Elapsed 100 [item 4 60; item 5 50]) =
      Some (q', adm', tr) /\
    100 < next_cleanup q_mixed_holds /\ Spool.due (item 4 60) <= 100 /\
    (exists h, on_hold q' !! 4%nat = Some h /\
       match h with
       | InFlight => True
       | ConcurrencyLimited _ _ => True
       | Locked until => 100 < until
       end) /\
    on_hold q' !! 4%nat = Some (Locked 800).
Proof.
  do 3 eexists. split; [vm_compute; reflexivity|].
  split; [cbn; lia|]. split; [cbn; lia|]. split; [|vm_compute; reflexivity].
  eapply (rescan_due_item_held g_concurrent g_is_outbound_allowed 300 q_mixed_holds 0
    (mk_env Elapsed 100 [item 4 60; item 5 50]) _ _ _ (item 4 60));
    [vm_compute; reflexivity | cbn; lia | apply elem_of_cons; left; reflexivity | cbn; lia].
Defined.

Lemma rescan_wake_up_bounds_witness :
  exists q' adm' tr,
    g_rescan 300 q0 0 (mk_env Elapsed 100 [item 1 250; item 2 180]) = Some (q', adm', tr) /\
    0 < 300 /\ 100 < next_wake_up q' <= 100 + 300 /\
    next_wake_up q' <= 100 + (Spool.due (item 2 180) - 100).
Proof.
  do 3 eexists. split; [vm_compute; reflexivity|]. split; [lia|].
  destruct (rescan_wake_up_bounds g_concurrent g_is_outbound_allowed 300 q0 0
    (mk_env Elapsed 100 [item 1 250; item 2 180]) _ _ _ ltac:(lia)
    ltac:(vm_compute; reflexivity)) as [Hb Hnd].
  split; [exact Hb|]. apply (Hnd (item 2 180)).
  apply elem_of_cons; right. apply elem_of_cons; left. reflexivity.
Defined.

Lemma rescan_empty_batch_witness :
  exists q' adm' tr,
    g_rescan 300 q_mixed_holds 0 (mk_env Elapsed 700 []) = Some (q', adm', tr) /\
    tr = [] /\ adm' = 0 /\ next_wake_up q' = 700 + 300 /\ on_hold q' !! 2%nat = None.
Proof.
  destruct (g_rescan 300 q_mixed_holds 0 (mk_env Elapsed 700 [])) as [[[q' adm'] tr]|] eqn:Hr;
    [|vm_compute in Hr; discriminate].
  exists q', adm', tr. split; [reflexivity|].
  destruct (rescan_empty_batch g_concurrent g_is_outbound_allowed 300 q_mixed_holds 0
    (mk_env Elapsed 700 []) q' adm' tr eq_refl Hr) as (Htr & Hadm & Hw & _ & Hfire).
  split; [exact Htr|]. split; [exact Hadm|]. split; [exact Hw|].
  destruct (on_hold q' !! 2%nat) as [h|] eqn:Hh; [|reflexivity].
  destruct (proj1 (Hfire ltac:(cbn; lia) 2%nat h) Hh) as [Hq Hret].
  vm_compute in Hq. injection Hq as <-. destruct Hret.
Defined.

Lemma last_worker_done_no_rescan_witness :
  delete 1%nat (on_hold q_wake_500) = ∅ /\ 100 < next_wake_up q_wake_500 /\
  g_loop_iter 300 q_wake_500 0 (mk_env (Received (Some (Ipc.WorkerDone 1%nat))) 100 []) =
    Continue (set_on_hold ∅ q_wake_500) 0 [].
Proof.
  split; [vm_compute; reflexivity|]. split; [cbn; lia|].
  apply (last_worker_done_no_rescan g_concurrent g_is_outbound_allowed 300 q_wake_500 0
    (mk_env (Received (Some (Ipc.WorkerDone 1%nat))) 100 []) 1%nat);
    [reflexivity | vm_compute; reflexivity | reflexivity | cbn; lia].
Defined.
